(** * Verification of the subscribe bot (index.js)

    A shallow embedding of [src/index.js]: the endpoint connection loop,
    the operator-input validation, the one-time allowance check, the
    randomised amount generator and the submission loop, together with
    the ECMAScript built-ins the script relies on ([parseFloat],
    [parseInt], [Number.prototype.toString], [Number.prototype.toFixed],
    [Math.floor], binary64 arithmetic) and the value parser of the ledger
    client ([parseUnits]).

    Layout: the data model and the code first, the theorems after. *)

From Stdlib Require Import ZArith String Ascii List Bool Lia.
Import ListNotations.
Local Open Scope Z_scope.

(* ===================================================================== *)
(** ** JavaScript numbers (IEEE-754 binary64)                              *)
(* ===================================================================== *)

(** Every finite binary64 value is an integer multiple of the smallest
    subnormal, 2^-1074.  A finite number is stored as that integer (its
    value in _units_): the representation is canonical, the order of the
    values is the order of [Z], and exact sums are sums in [Z].  The
    binary64 values are the units [m * 2^s] with [|m| < 2^53].  The sign of
    zero is not kept: the script never divides, and [-0] prints, compares
    and formats like [0]. *)
Module Num.

Inductive number : Type :=
| NaN : number
| Inf (neg : bool) : number
| Fin (u : Z) : number.

(** One, in units. *)
Definition unit_scale : Z := 2 ^ 1074.

(** The largest finite binary64, [(2^53 - 1) * 2^971], in units. *)
Definition max_units : Z := (2 ^ 53 - 1) * 2 ^ 2045.

(** Binary exponent of the spacing of the binary64 grid at [a] units. *)
Definition shift (a : Z) : Z := Z.max 0 (Z.log2 a - 52).

(** [a >= 0] units is a binary64 value. *)
Definition on_grid (a : Z) : bool :=
  (a mod 2 ^ shift a =? 0) && (a <=? max_units).

(** [g] is a multiple of the spacing of the grid at [g]. *)
Definition aligned (g : Z) : Prop := g mod 2 ^ shift g = 0.

Definition is_double (x : number) : bool :=
  match x with
  | Fin u => on_grid (Z.abs u)
  | _ => true
  end.

(** Nearest integer to [p / q] ([p >= 0], [q > 0]), ties to even. *)
Definition rne (p q : Z) : Z :=
  let f := p / q in
  match (2 * (p mod q)) ?= q with
  | Lt => f
  | Gt => f + 1
  | Eq => if Z.even f then f else f + 1
  end.

(** Round the non-negative rational [p / q] (in units) to the binary64
    grid, to nearest, ties to even; the exponent is unbounded above. *)
Definition round_units (p q : Z) : Z :=
  let s := shift (p / q) in
  rne p (q * 2 ^ s) * 2 ^ s.

(** The binary64 nearest to the rational [p / q] units ([q > 0]), with
    overflow to infinity. *)
Definition of_rat (p q : Z) : number :=
  let neg := p <? 0 in
  let u := round_units (Z.abs p) q in
  if max_units <? u then Inf neg
  else Fin (if neg then - u else u).

(** The number with mathematical value [n * 10^e]. *)
Definition of_decimal (n e : Z) : number :=
  if 0 <=? e then of_rat (n * 10 ^ e * unit_scale) 1
  else of_rat (n * unit_scale) (10 ^ (- e)).

Definition of_Z (n : Z) : number := of_rat (n * unit_scale) 1.

Definition zero : number := Fin 0.
Definition one : number := Fin unit_scale.

Definition isNaN (x : number) : bool :=
  match x with NaN => true | _ => false end.

(** [x < y] *)
Definition lt (x y : number) : bool :=
  match x, y with
  | NaN, _ | _, NaN => false
  | Inf true, Inf true => false
  | Inf true, _ => true
  | _, Inf true => false
  | Inf false, _ => false
  | _, Inf false => true
  | Fin a, Fin b => a <? b
  end.

(** [x <= y] *)
Definition le (x y : number) : bool :=
  match x, y with
  | NaN, _ | _, NaN => false
  | Inf true, _ => true
  | _, Inf true => false
  | _, Inf false => true
  | Inf false, _ => false
  | Fin a, Fin b => a <=? b
  end.

Definition opp (x : number) : number :=
  match x with
  | NaN => NaN
  | Inf s => Inf (negb s)
  | Fin u => Fin (- u)
  end.

(** [x + y] *)
Definition add (x y : number) : number :=
  match x, y with
  | NaN, _ | _, NaN => NaN
  | Inf s, Inf t => if Bool.eqb s t then Inf s else NaN
  | Inf s, Fin _ | Fin _, Inf s => Inf s
  | Fin a, Fin b => of_rat (a + b) 1
  end.

(** [x - y] *)
Definition sub (x y : number) : number := add x (opp y).

(** [x * y] *)
Definition mul (x y : number) : number :=
  match x, y with
  | NaN, _ | _, NaN => NaN
  | Inf s, Inf t => Inf (xorb s t)
  | Inf s, Fin b | Fin b, Inf s =>
      if b =? 0 then NaN else Inf (xorb s (b <? 0))
  | Fin a, Fin b => of_rat (a * b) unit_scale
  end.

(** [Math.floor(x)] *)
Definition floor (x : number) : number :=
  match x with
  | Fin u => Fin (u / unit_scale * unit_scale)
  | _ => x
  end.

End Num.

(* ===================================================================== *)
(** ** JavaScript strings and decimal digit strings                        *)
(* ===================================================================== *)

(** Strings are lists of characters; operator input and the strings the
    script builds are ASCII. *)
Module Str.

Definition jsstring : Type := list ascii.

Definition lit (s : string) : jsstring := list_ascii_of_string s.

Definition code (c : ascii) : Z := Z.of_N (N_of_ascii c).

Definition is_digit (c : ascii) : bool := (48 <=? code c) && (code c <=? 57).

Definition digit_val (c : ascii) : Z := code c - 48.

Definition digit_char (d : Z) : ascii := ascii_of_N (Z.to_N (48 + d)).

(** ASCII part of ECMAScript's [StrWhiteSpaceChar]. *)
Definition is_space (c : ascii) : bool :=
  let n := code c in ((9 <=? n) && (n <=? 13)) || (n =? 32).

(** Value of a string of decimal digits, most significant first. *)
Definition digits_val (s : jsstring) : Z :=
  fold_left (fun acc c => acc * 10 + digit_val c) s 0.

Fixpoint digits_from (fuel : nat) (n : Z) (acc : jsstring) : jsstring :=
  match fuel with
  | O => acc
  | S f =>
      let acc' := digit_char (n mod 10) :: acc in
      if n <? 10 then acc' else digits_from f (n / 10) acc'
  end.

(** Decimal digits of [n >= 0], no leading zero (and ["0"] for zero). *)
Definition digits_of (n : Z) : jsstring :=
  digits_from (S (Z.to_nat (Z.log2 n))) n [].

Definition zeros (k : nat) : jsstring := repeat "0"%char k.

Fixpoint take_while (p : ascii -> bool) (s : jsstring) : jsstring :=
  match s with
  | c :: r => if p c then c :: take_while p r else []
  | [] => []
  end.

Fixpoint drop_while (p : ascii -> bool) (s : jsstring) : jsstring :=
  match s with
  | c :: r => if p c then drop_while p r else s
  | [] => []
  end.

Fixpoint starts_with (pre s : jsstring) : bool :=
  match pre, s with
  | [], _ => true
  | a :: p, b :: r => Ascii.eqb a b && starts_with p r
  | _ :: _, [] => false
  end.

(** Leading sign of a numeric literal: the flag is [true] for ["-"]. *)
Definition split_sign (s : jsstring) : bool * jsstring :=
  match s with
  | c :: r =>
      if Ascii.eqb c "-" then (true, r)
      else if Ascii.eqb c "+" then (false, r)
      else (false, s)
  | [] => (false, s)
  end.

(** [s] is fixed-point text with exactly [d] fractional digits:
    [/^[0-9]+$/] for [d = 0] and [/^[0-9]+\.[0-9]{d}$/] otherwise. *)
Definition fixed_format (d : Z) (s : jsstring) : bool :=
  match take_while is_digit s, drop_while is_digit s with
  | [], _ => false
  | _ :: _, [] => d =? 0
  | _ :: _, c :: frac =>
      Ascii.eqb c "." && forallb is_digit frac
      && (Z.of_nat (length frac) =? d) && (0 <? d)
  end.


(** Lexicographic order on code units: [s < t] for two strings. *)
Fixpoint str_lt (s t : jsstring) : bool :=
  match s, t with
  | _, [] => false
  | [], _ :: _ => true
  | a :: s', b :: t' =>
      if code a <? code b then true
      else if code b <? code a then false
      else str_lt s' t'
  end.

End Str.

(* ===================================================================== *)
(** ** ECMAScript built-ins used by the script                             *)
(* ===================================================================== *)

(** What a JavaScript exception carries, as far as the script can tell the
    cases apart (it only prints them). *)
Inductive error : Type :=
| RangeError            (* toFixed: digits argument out of 0..100 *)
| InvalidValue          (* parseUnits: not a decimal literal *)
| TooManyDecimals       (* parseUnits: more precision than the unit has *)
| CallRejected.         (* a ledger call or transaction failed *)

Inductive result (A : Type) : Type :=
| Ok (a : A)
| Err (e : error).
Arguments Ok {A} a.
Arguments Err {A} e.

Module JS.
Import Num Str.

(** *** parseFloat (ECMA-262, 19.2.4) *)

(** Exponent part [e|E [+|-] digits] at the head of [s], 0 when there is
    none (an [e] that is not followed by digits is not consumed). *)
Definition exponent_part (s : jsstring) : Z :=
  match s with
  | c :: r =>
      if Ascii.eqb c "e" || Ascii.eqb c "E" then
        let '(neg, r') := split_sign r in
        let ds := take_while is_digit r' in
        match ds with
        | [] => 0
        | _ => if neg then - digits_val ds else digits_val ds
        end
      else 0
  | [] => 0
  end.

Definition parseFloat (s : jsstring) : number :=
  let '(neg, t) := split_sign (drop_while is_space s) in
  if starts_with (lit "Infinity") t then Inf neg
  else
    let ip := take_while is_digit t in
    let t1 := drop_while is_digit t in
    let '(fp, t2) :=
      match t1 with
      | c :: r =>
          if Ascii.eqb c "."
          then (take_while is_digit r, drop_while is_digit r)
          else ([], t1)
      | [] => ([], t1)
      end in
    match ip ++ fp with
    | [] => NaN
    | ds =>
        let m := digits_val ds in
        of_decimal (if neg then - m else m)
                   (exponent_part t2 - Z.of_nat (length fp))
    end.

(** *** parseInt with no radix argument (ECMA-262, 19.2.5) *)

Definition hex_val (c : ascii) : option Z :=
  let n := code c in
  if is_digit c then Some (n - 48)
  else if (97 <=? n) && (n <=? 102) then Some (n - 87)
  else if (65 <=? n) && (n <=? 70) then Some (n - 55)
  else None.

Definition radix_digit (radix : Z) (c : ascii) : bool :=
  if radix =? 16 then
    match hex_val c with Some _ => true | None => false end
  else is_digit c.

Definition radix_val (radix : Z) (s : jsstring) : Z :=
  fold_left
    (fun acc c => acc * radix + match hex_val c with Some d => d | None => 0 end)
    s 0.

Definition parseInt (s : jsstring) : number :=
  let '(neg, t) := split_sign (drop_while is_space s) in
  let '(radix, t') :=
    match t with
    | z :: c :: r =>
        if Ascii.eqb z "0" && (Ascii.eqb c "x" || Ascii.eqb c "X")
        then (16, r) else (10, t)
    | _ => (10, t)
    end in
  match take_while (radix_digit radix) t' with
  | [] => NaN
  | ds => let m := radix_val radix ds in of_Z (if neg then - m else m)
  end.

(** *** Number::toString, radix 10 (ECMA-262, 6.1.6.1.20) *)

(** Number of multiplications by ten that bring [a] units up to one. *)
Fixpoint lead_zeros (fuel : nat) (a : Z) : Z :=
  match fuel with
  | O => 0
  | S f => if unit_scale <=? a then 0 else 1 + lead_zeros f (a * 10)
  end.

(** The [n] with [10^(n-1) <= x < 10^n], for [x] of [a > 0] units. *)
Definition dec_exponent (a : Z) : Z :=
  if unit_scale <=? a then Z.of_nat (length (digits_of (a / unit_scale)))
  else 1 - lead_zeros 400 a.

(** [s * 10^e] reads back as the binary64 of [a] units. *)
Definition reads_back (a s e : Z) : bool :=
  match of_decimal s e with
  | Fin b => b =? a
  | _ => false
  end.

(** The best [k]-digit candidate [s] (with [e = n - k]) for [a] units:
    of the two [k]-digit decimals around the value, the one that reads
    back, the closer one when both do, the even one on a tie. *)
Definition candidate (a n k : Z) : option (Z * Z) :=
  let e := n - k in
  let lo := if 0 <=? e then a / (unit_scale * 10 ^ e)
            else a * 10 ^ (- e) / unit_scale in
  let hi := lo + 1 in
  let below := if 0 <=? e then a - lo * 10 ^ e * unit_scale
               else a * 10 ^ (- e) - lo * unit_scale in
  let above := if 0 <=? e then hi * 10 ^ e * unit_scale - a
               else hi * unit_scale - a * 10 ^ (- e) in
  match reads_back a lo e, reads_back a hi e with
  | true, true =>
      if below <? above then Some (lo, e)
      else if above <? below then Some (hi, e)
      else if Z.even lo then Some (lo, e) else Some (hi, e)
  | true, false => Some (lo, e)
  | false, true => Some (hi, e)
  | false, false => None
  end.

Fixpoint search (fuel : nat) (a n k : Z) : option (Z * Z) :=
  match fuel with
  | O => None
  | S f =>
      match candidate a n k with
      | Some r => Some r
      | None => search f a n (k + 1)
      end
  end.

(** Drop the trailing zeros of [s], raising the exponent. *)
Fixpoint strip10 (fuel : nat) (s e : Z) : Z * Z :=
  match fuel with
  | O => (s, e)
  | S f =>
      if (s mod 10 =? 0) && negb (s =? 0) then strip10 f (s / 10) (e + 1)
      else (s, e)
  end.

(** The shortest decimal [s * 10^e] that reads back as [a > 0] units:
    at most 17 significant digits are ever needed; the exact binary
    expansion [a * 5^1074 * 10^-1074] closes the search. *)
Definition shortest (a : Z) : Z * Z :=
  match search 17 a (dec_exponent a) 1 with
  | Some (s, e) => strip10 20 s e
  | None => strip10 1100 (a * 5 ^ 1074) (-1074)
  end.

(** Steps 6 to 10 of Number::toString: lay out the digits [ds] of [s]
    for the decimal exponent [n]. *)
Definition layout (ds : jsstring) (n : Z) : jsstring :=
  let k := Z.of_nat (length ds) in
  if (k <=? n) && (n <=? 21) then ds ++ zeros (Z.to_nat (n - k))
  else if (0 <? n) && (n <=? 21) then
    firstn (Z.to_nat n) ds ++ "."%char :: skipn (Z.to_nat n) ds
  else if (-6 <? n) && (n <=? 0) then
    "0"%char :: "."%char :: zeros (Z.to_nat (- n)) ++ ds
  else
    let x := n - 1 in
    let ex := "e"%char :: (if x <? 0 then "-"%char else "+"%char)
                       :: digits_of (Z.abs x) in
    match ds with
    | [] => []
    | [d] => d :: ex
    | d :: rest => d :: "."%char :: rest ++ ex
    end.

Definition toString_pos (a : Z) : jsstring :=
  let '(s, e) := shortest a in
  let ds := digits_of s in
  layout ds (Z.of_nat (length ds) + e).

Definition toString (x : number) : jsstring :=
  match x with
  | NaN => lit "NaN"
  | Inf false => lit "Infinity"
  | Inf true => lit "-Infinity"
  | Fin u =>
      if u =? 0 then lit "0"
      else if u <? 0 then "-"%char :: toString_pos (- u)
      else toString_pos u
  end.

(** *** Number.prototype.toFixed (ECMA-262, 21.1.3.3) *)

(** The integer [n] for which [n / 10^f - x] is as close to zero as
    possible, the larger one when there are two ([x] of [a >= 0] units). *)
Definition fixed_int (a f : Z) : Z :=
  (2 * a * 10 ^ f + unit_scale) / (2 * unit_scale).

(** Step 10: the digits of [n] with a point before the last [f]. *)
Definition fixed_layout (n f : Z) : jsstring :=
  let m := digits_of n in
  if f =? 0 then m
  else
    let k := length m in
    let m' := zeros (Z.to_nat f + 1 - k) ++ m in
    let a := (length m' - Z.to_nat f)%nat in
    firstn a m' ++ "."%char :: skipn a m'.

Definition toFixed (x : number) (fractionDigits : Z) : result jsstring :=
  if (fractionDigits <? 0) || (100 <? fractionDigits) then Err RangeError
  else
    match x with
    | Fin u =>
        let a := Z.abs u in
        let m := if 10 ^ 21 * unit_scale <=? a then toString_pos a
                 else fixed_layout (fixed_int a fractionDigits) fractionDigits in
        Ok (if u <? 0 then "-"%char :: m else m)
    | _ => Ok (toString x)
    end.

End JS.

(* ===================================================================== *)
(** ** The ledger client (ethers)                                          *)
(* ===================================================================== *)

Module Ledger.
Import Str.

(** Modelled from the spec: the value parser of the ledger client
    ([parseUnits] of ethers), which is a dependency and not part of the
    repository.  It "parses the formatted string into the token's
    smallest-unit integer representation" and "rejects over-precise
    decimal strings": a decimal literal [-?digits(.digits)?] with at least
    one digit is scaled by [10^decimals]; digits beyond the precision
    must be zeros.  The client's own upper limit on [decimals] is not
    modelled. *)
Definition parse_unsigned (t : jsstring) (decimals : Z) : result Z :=
  let whole := take_while is_digit t in
  let parts :=
    match drop_while is_digit t with
    | [] => Some []
    | c :: r =>
        if Ascii.eqb c "." && forallb is_digit r then Some r else None
    end in
  match parts with
  | None => Err InvalidValue
  | Some frac =>
      match whole ++ frac with
      | [] => Err InvalidValue
      | _ =>
          let d := Z.to_nat decimals in
          if forallb (Ascii.eqb "0") (skipn d frac) then
            let fr := firstn d frac in
            Ok (digits_val (whole ++ fr ++ zeros (d - length fr)))
          else Err TooManyDecimals
      end
  end.

(** Modelled from the spec: [parseUnits(value, decimals)] of the ledger
    client, the parser above with an optional leading minus sign. *)
Definition parseUnits (value : jsstring) (decimals : Z) : result Z :=
  match value with
  | c :: r =>
      if Ascii.eqb c "-" then
        match parse_unsigned r decimals with
        | Ok v => Ok (- v)
        | Err e => Err e
        end
      else parse_unsigned value decimals
  | [] => parse_unsigned value decimals
  end.


(** [parseEther]: eighteen decimals. *)
Definition parseEther (value : jsstring) : result Z := parseUnits value 18.

Definition MaxUint256 : Z := 2 ^ 256 - 1.

(** The two package shapes the script binds to (lines 33-60). *)
Inductive shape : Type := V5 | V6.

(** Decimal text of a ledger integer ([toString()]). *)
Definition show_int (n : Z) : jsstring :=
  if n <? 0 then "-"%char :: digits_of (- n) else digits_of n.

End Ledger.

(* ===================================================================== *)
(** ** The script                                                          *)
(* ===================================================================== *)

Module Bot.
Import Num Str JS Ledger.

(** The five prompts of lines 104-108. *)
Inductive question : Type :=
| AskMin | AskMax | AskLoops | AskDelayMin | AskDelayMax.

(** A transaction: the submission can be rejected, or the confirmation
    ([wait()]) can fail, or it is confirmed. *)
Inductive tx_reply : Type := Confirmed | SendFails | WaitFails.

(** What the script reads from outside: environment, endpoint, wallet,
    operator, token contract, target contract and [Math.random]. *)
Record world : Type := {
  env_present : bool;             (* RPC_URL, PRIVATE_KEY, ... are set *)
  ethers_shape : option shape;    (* [None]: absent or unsupported *)
  SUBSCRIBE_VALUE : jsstring;
  network_up : Z -> bool;         (* connect attempt [k] succeeds *)
  address_reply : bool;           (* wallet.getAddress() *)
  answer : question -> jsstring;  (* what the operator types *)
  decimals_reply : option Z;      (* usdt.decimals(), a uint8 *)
  allowance_reply : option Z;     (* usdt.allowance(myAddr, CONTRACT) *)
  approve_reply : tx_reply;       (* usdt.approve(..) and its wait() *)
  random : nat -> number;         (* successive Math.random() values *)
  subscribe_reply : number -> tx_reply  (* iteration [i]'s subscribe *)
}.

(** The lines written to the console, by the call that writes them. *)
Inductive message : Type :=
| MsgMissingEnv | MsgNoEthers
| MsgConnected (attempt : Z)
| MsgAttemptFailed (attempt : Z)
| MsgExceeded
| MsgRetrying (seconds : Z)
| MsgWallet | MsgCashPlus | MsgUsdt
| MsgInvalidInput | MsgInvalidRange
| MsgDecimals (d : Z)
| MsgAllowance (a : Z)
| MsgApproving | MsgApproveTx | MsgApproveConfirmed | MsgAllowanceOk
| MsgSubscribeValue (wei : Z)
| MsgNominal (i loops : number) (nominalStr : jsstring) (amountParsed : Z)
| MsgTxSent | MsgConfirmed
| MsgSubscribeError (e : error)
| MsgWaiting (seconds : result jsstring)
| MsgDone
| MsgFatal (e : error).

(** Observable actions, in program order. *)
Inductive event : Type :=
| EvLog (m : message)
| EvGetNetwork (attempt : Z)
| EvSleep (ms : number)
| EvGetAddress
| EvAsk (q : question)
| EvDecimals
| EvAllowance
| EvApprove (amount : Z)
| EvApproveWait
| EvSubscribe (i : number) (amountParsed valueWei : Z)
| EvSubscribeWait (i : number)
| EvExit (code : Z).

(** How a computation ends: normally, by a thrown exception, by
    [process.exit], or (in the model only) by running out of fuel. *)
Inductive outcome (A : Type) : Type :=
| Returned (a : A)
| Thrown (e : error)
| Exited (code : Z)
| OutOfFuel.
Arguments Returned {A} a.
Arguments Thrown {A} e.
Arguments Exited {A} code.
Arguments OutOfFuel {A}.

(** Computations: the state is the number of [Math.random()] calls made so
    far, the output is the trace of events. *)
Definition M (A : Type) : Type := nat -> list event * nat * outcome A.

Definition ret {A} (a : A) : M A := fun k => ([], k, Returned a).

(** The events [t] happened before those of [x]. *)
Definition prepend {A} (t : list event) (x : list event * nat * outcome A)
  : list event * nat * outcome A :=
  let '(t2, k2, r2) := x in (t ++ t2, k2, r2).

Definition bind {A B} (m : M A) (f : A -> M B) : M B :=
  fun k =>
    let '(t1, k1, r) := m k in
    match r with
    | Returned a => prepend t1 (f a k1)
    | Thrown e => (t1, k1, Thrown e)
    | Exited c => (t1, k1, Exited c)
    | OutOfFuel => (t1, k1, OutOfFuel)
    end.

(** [try { m } catch (e) { h e }] *)
Definition try_catch {A} (m : M A) (h : error -> M A) : M A :=
  fun k =>
    let '(t1, k1, r) := m k in
    match r with
    | Thrown e => prepend t1 (h e k1)
    | _ => (t1, k1, r)
    end.

Declare Scope bot_scope.
Delimit Scope bot_scope with bot.
Notation "x <- m ;; k" := (bind m (fun x => k))
  (at level 61, m at next level, right associativity) : bot_scope.
Notation "m ;; k" := (bind m (fun _ => k))
  (at level 61, right associativity) : bot_scope.
Local Open Scope bot_scope.

Definition emit (e : event) : M unit := fun k => ([e], k, Returned tt).
Definition throw {A} (e : error) : M A := fun k => ([], k, Thrown e).
Definition out_of_fuel {A} : M A := fun k => ([], k, OutOfFuel).
Definition log (m : message) : M unit := emit (EvLog m).

(** [process.exit(code)] *)
Definition exit {A} (code : Z) : M A := fun k => ([EvExit code], k, Exited code).

(** [await sleep(ms)] *)
Definition sleep (ms : number) : M unit := emit (EvSleep ms).

Definition lift {A} (r : result A) : M A :=
  match r with
  | Ok a => ret a
  | Err e => throw e
  end.

(** An awaited read-only call: the event, then the reply or a rejection. *)
Definition call {A} (e : event) (reply : option A) : M A :=
  emit e ;; match reply with Some a => ret a | None => throw CallRejected end.

Definition when (b : bool) (m : M unit) : M unit := if b then m else ret tt.

Section Script.

Variable w : world.

(** [Math.random()] *)
Definition math_random : M number := fun k => ([], S k, Returned (random w k)).

(** Line 23: [const randomFloat = (min, max) => Math.random() * (max - min) + min] *)
Definition randomFloat (min max : number) : M number :=
  r <- math_random ;; ret (add (mul r (sub max min)) min).

Definition MAX_ATTEMPTS : Z := 8.
Definition BASE_DELAY_MS : Z := 2000.

(** Lines 66-83.  [attempt] and [delay] stay small integers, on which
    binary64 arithmetic is exact. *)
Fixpoint connect_loop (fuel : nat) (attempt : Z) : M unit :=
  match fuel with
  | O => out_of_fuel
  | S f =>
      if attempt <=? MAX_ATTEMPTS then
        connected <-
          try_catch
            (call (EvGetNetwork attempt)
                  (if network_up w attempt then Some tt else None) ;;
             log (MsgConnected attempt) ;;
             ret true)
            (fun _ =>
               log (MsgAttemptFailed attempt) ;;
               when (attempt =? MAX_ATTEMPTS) (log MsgExceeded ;; exit 1) ;;
               let delay := BASE_DELAY_MS * 2 ^ (attempt - 1) in
               log (MsgRetrying (delay / 1000)) ;;
               sleep (of_Z delay) ;;
               ret false) ;;
        if connected : bool then ret tt else connect_loop f (attempt + 1)
      else ret tt
  end.

Definition connect : M unit := connect_loop 9 1.

(** Line 136: [(allowance.lt && allowance.lt(needed)) || (allowance < needed)].
    A [bigint] (shape V6) has no [lt], and [<] compares the integers.  A
    [BigNumber] (shape V5) has [lt]; when it answers false the right
    operand is evaluated, and [<] on two objects compares their
    [toString()] texts as strings. *)
Definition allowTooSmall (sh : shape) (allowance approxMaxNeeded : Z) : bool :=
  match sh with
  | V6 => allowance <? approxMaxNeeded
  | V5 => (allowance <? approxMaxNeeded)
          || str_lt (show_int allowance) (show_int approxMaxNeeded)
  end.

(** A transaction is first submitted, then confirmed by [wait()]. *)
Definition submitted (reply : tx_reply) : option unit :=
  match reply with SendFails => None | _ => Some tt end.

Definition confirmed (reply : tx_reply) : option unit :=
  match reply with WaitFails => None | _ => Some tt end.

(** The operator's five answers, parsed (lines 110-114). *)
Record inputs : Type := {
  minVal : number;
  maxVal : number;
  loops : number;
  delayMin : number;
  delayMax : number
}.

(** Lines 98-123: the wallet address, the five prompts, the validation. *)
Definition read_inputs : M inputs :=
  call EvGetAddress (if address_reply w then Some tt else None) ;;
  log MsgWallet ;; log MsgCashPlus ;; log MsgUsdt ;;
  minStr <- call (EvAsk AskMin) (Some (answer w AskMin)) ;;
  maxStr <- call (EvAsk AskMax) (Some (answer w AskMax)) ;;
  loopsStr <- call (EvAsk AskLoops) (Some (answer w AskLoops)) ;;
  delayMinStr <- call (EvAsk AskDelayMin) (Some (answer w AskDelayMin)) ;;
  delayMaxStr <- call (EvAsk AskDelayMax) (Some (answer w AskDelayMax)) ;;
  let minVal := parseFloat minStr in
  let maxVal := parseFloat maxStr in
  let loops := parseInt loopsStr in
  let delayMin := parseFloat delayMinStr in
  let delayMax := parseFloat delayMaxStr in
  when (existsb isNaN [minVal; maxVal; loops; delayMin; delayMax])
    (log MsgInvalidInput ;; exit 1) ;;
  when (le minVal zero || le maxVal zero || le loops zero
        || lt delayMin zero || lt delayMax zero
        || lt maxVal minVal || lt delayMax delayMin)
    (log MsgInvalidRange ;; exit 1) ;;
  ret {| minVal := minVal; maxVal := maxVal; loops := loops;
         delayMin := delayMin; delayMax := delayMax |}.

(** Lines 125-145: the token's decimals, then the allowance check and the
    approval.  [decimalsRaw] is a uint8 and
    [Number(decimalsRaw.toString())] is that integer.  The result is
    [decimalsNum]. *)
Definition ensure_allowance (sh : shape) (maxVal : number) : M Z :=
  decimalsNum <- call EvDecimals (decimals_reply w) ;;
  log (MsgDecimals decimalsNum) ;;
  approxMaxNeeded <- lift (parseUnits (toString maxVal) decimalsNum) ;;
  allowance <- call EvAllowance (allowance_reply w) ;;
  log (MsgAllowance allowance) ;;
  (if allowTooSmall sh allowance approxMaxNeeded then
     log MsgApproving ;;
     call (EvApprove MaxUint256) (submitted (approve_reply w)) ;;
     log MsgApproveTx ;;
     call EvApproveWait (confirmed (approve_reply w)) ;;
     log MsgApproveConfirmed
   else log MsgAllowanceOk) ;;
  ret decimalsNum.

Section Loop.

Variable cfg : inputs.
Variables (decimalsNum valueWei : Z).

(** Lines 150-180, one pass of the loop body for counter [i]. *)
Definition iteration (i : number) : M unit :=
  nominal <- randomFloat (minVal cfg) (maxVal cfg) ;;
  nominalStr <- lift (toFixed nominal decimalsNum) ;;
  amountParsed <- lift (parseUnits nominalStr decimalsNum) ;;
  log (MsgNominal i (loops cfg) nominalStr amountParsed) ;;
  try_catch
    (call (EvSubscribe i amountParsed valueWei)
          (submitted (subscribe_reply w i)) ;;
     log MsgTxSent ;;
     call (EvSubscribeWait i) (confirmed (subscribe_reply w i)) ;;
     log MsgConfirmed)
    (fun e => log (MsgSubscribeError e)) ;;
  when (lt i (loops cfg))
    (delaySec <- randomFloat (delayMin cfg) (delayMax cfg) ;;
     log (MsgWaiting (toFixed delaySec 2)) ;;
     sleep (floor (mul delaySec (of_Z 1000)))).

(** [for (let i = 1; i <= loops; i++) { ... }] from counter [i] on. *)
Fixpoint subscribe_loop (fuel : nat) (i : number) : M unit :=
  match fuel with
  | O => out_of_fuel
  | S f =>
      if le i (loops cfg) then iteration i ;; subscribe_loop f (add i one)
      else ret tt
  end.

End Loop.

(** Lines 97-182, the body of the outer [try]. *)
Definition body (sh : shape) (fuel : nat) : M unit :=
  cfg <- read_inputs ;;
  decimalsNum <- ensure_allowance sh (maxVal cfg) ;;
  valueWei <- lift (parseEther (SUBSCRIBE_VALUE w)) ;;
  log (MsgSubscribeValue valueWei) ;;
  subscribe_loop cfg decimalsNum valueWei fuel one ;;
  log MsgDone.

(** The whole script: lines 14-17, 28-39, 63-83 and the outer
    [try { ... } catch (err) { console.error('Fatal:', err); process.exit(1) }]. *)
Definition main (fuel : nat) : M unit :=
  if negb (env_present w) then log MsgMissingEnv ;; exit 1
  else
    match ethers_shape w with
    | None => log MsgNoEthers ;; exit 1
    | Some sh =>
        connect ;;
        try_catch (body sh fuel) (fun err => log (MsgFatal err) ;; exit 1)
    end.

End Script.

(** A run from the start: the trace and how the process ended. *)
Definition run (w : world) (fuel : nat) : list event * outcome unit :=
  let '(t, _, r) := main w fuel 0%nat in (t, r).

End Bot.

(* ===================================================================== *)
(** ** Observations on runs                                                *)
(* ===================================================================== *)

Module Obs.
Import Num Str JS Ledger Bot.

(** Calls to the endpoint itself. *)
Definition is_connect (e : event) : bool :=
  match e with EvGetNetwork _ => true | _ => false end.

(** Calls to the token and to the target contract: the Allowance Guard
    and the submission loop. *)
Definition is_ledger_call (e : event) : bool :=
  match e with
  | EvDecimals | EvAllowance | EvApprove _ | EvApproveWait
  | EvSubscribe _ _ _ | EvSubscribeWait _ => true
  | _ => false
  end.

Definition is_network_call (e : event) : bool :=
  is_connect e || is_ledger_call e.

Definition is_approve (e : event) : bool :=
  match e with EvApprove _ => true | _ => false end.

(** The loop counters of the submissions attempted, in order. *)
Definition subscribed (t : list event) : list number :=
  flat_map (fun e => match e with EvSubscribe i _ _ => [i] | _ => [] end) t.

(** How many submission errors were caught and logged. *)
Definition errors_logged (t : list event) : nat :=
  length (filter (fun e => match e with
                           | EvLog (MsgSubscribeError _) => true
                           | _ => false
                           end) t).



(** The events of the connection phase. *)
Definition connect_event (e : event) : bool :=
  match e with
  | EvGetNetwork _ | EvSleep _ | EvExit _
  | EvLog (MsgConnected _) | EvLog (MsgAttemptFailed _)
  | EvLog MsgExceeded | EvLog (MsgRetrying _) => true
  | _ => false
  end.

(** The attempts [1 .. n]. *)
Definition attempts (n : nat) : list Z := map Z.of_nat (seq 1 n).

(** What a failed attempt [k] that is not the last leaves in the trace:
    the call, its two console lines, and a sleep of [2000 * 2^(k-1)] ms. *)
Definition backoff_round (k : Z) : list event :=
  [EvGetNetwork k; EvLog (MsgAttemptFailed k);
   EvLog (MsgRetrying (2 * 2 ^ (k - 1)));
   EvSleep (of_Z (2000 * 2 ^ (k - 1)))].



(** What reading the inputs leaves in the trace before the validation. *)
Definition prompts : list event :=
  [EvGetAddress; EvLog MsgWallet; EvLog MsgCashPlus; EvLog MsgUsdt;
   EvAsk AskMin; EvAsk AskMax; EvAsk AskLoops; EvAsk AskDelayMin;
   EvAsk AskDelayMax].

(** The operator's answers as the script parses them. *)
Definition parsed (w : world) : inputs :=
  {| minVal := parseFloat (answer w AskMin);
     maxVal := parseFloat (answer w AskMax);
     loops := parseInt (answer w AskLoops);
     delayMin := parseFloat (answer w AskDelayMin);
     delayMax := parseFloat (answer w AskDelayMax) |}.

(** An input is malformed: it does not parse to a number. *)
Definition malformed (c : inputs) : bool :=
  isNaN (minVal c) || isNaN (maxVal c) || isNaN (loops c)
  || isNaN (delayMin c) || isNaN (delayMax c).

(** A range relationship is invalid: max < min, delayMax < delayMin, or a
    loop count that is not positive. *)
Definition bad_range (c : inputs) : bool :=
  lt (maxVal c) (minVal c) || lt (delayMax c) (delayMin c)
  || le (loops c) zero.

(** Everything line 120 refuses. *)
Definition out_of_range (c : inputs) : bool :=
  le (minVal c) zero || le (maxVal c) zero || le (loops c) zero
  || lt (delayMin c) zero || lt (delayMax c) zero
  || lt (maxVal c) (minVal c) || lt (delayMax c) (delayMin c).



(** The argument of [sleep] on line 178 when the delay is drawn with the
    [k]-th value of [Math.random()]. *)
Definition requested_sleep (w : world) (cfg : inputs) (k : nat) : number :=
  floor (mul (add (mul (random w k) (sub (delayMax cfg) (delayMin cfg)))
                  (delayMin cfg))
             (of_Z 1000)).

(** [Math.random()] answers binary64 values in [[0, 1)]. *)
Definition fair_random (w : world) : Prop :=
  forall k, exists r, random w k = Fin r
                      /\ 0 <= r < unit_scale /\ on_grid r = true.

(** Everything but [process.exit]. *)
Definition no_exit (e : event) : bool :=
  match e with EvExit _ => false | _ => true end.

(** The events of the submission loop (lines 150-180). *)
Definition loop_event (e : event) : bool :=
  match e with
  | EvSubscribe _ _ _ | EvSubscribeWait _ | EvSleep _
  | EvLog (MsgNominal _ _ _ _) | EvLog MsgTxSent | EvLog MsgConfirmed
  | EvLog (MsgSubscribeError _) | EvLog (MsgWaiting _) => true
  | _ => false
  end.

(** What the [try] of lines 162-173 leaves in the trace after the
    submission of iteration [i], by the reply to it. *)
Definition reply_events (w : world) (i : number) : list event :=
  match subscribe_reply w i with
  | Confirmed => [EvLog MsgTxSent; EvSubscribeWait i; EvLog MsgConfirmed]
  | SendFails => [EvLog (MsgSubscribeError CallRejected)]
  | WaitFails => [EvLog MsgTxSent; EvSubscribeWait i;
                  EvLog (MsgSubscribeError CallRejected)]
  end.

(** The events of the allowance check (lines 125-145). *)
Definition guard_event (e : event) : bool :=
  match e with
  | EvDecimals | EvAllowance | EvApprove _ | EvApproveWait
  | EvLog (MsgDecimals _) | EvLog (MsgAllowance _) | EvLog MsgApproving
  | EvLog MsgApproveTx | EvLog MsgApproveConfirmed
  | EvLog MsgAllowanceOk => true
  | _ => false
  end.

(** What the script does only once it is connected: reading the wallet
    address, prompting, and every call to the token or the contract. *)
Definition after_connection (e : event) : bool :=
  match e with
  | EvGetAddress | EvAsk _ => true
  | _ => is_ledger_call e
  end.

(** The console line of line 134. *)
Definition is_allowance_line (e : event) : bool :=
  match e with EvLog (MsgAllowance _) => true | _ => false end.


(** The amount drawn on line 152 with the [k]-th value of
    [Math.random()]. *)
Definition draw (w : world) (cfg : inputs) (k : nat) : number :=
  add (mul (random w k) (sub (maxVal cfg) (minVal cfg))) (minVal cfg).

(** The delay drawn on line 176 with the [k]-th value of
    [Math.random()]. *)
Definition delay_draw (w : world) (cfg : inputs) (k : nat) : number :=
  add (mul (random w k) (sub (delayMax cfg) (delayMin cfg))) (delayMin cfg).

(** The trace of one completed pass of the loop body for counter [i]:
    the console line, the submission, what the reply leaves, and the
    delay when one is taken. *)
Definition iteration_shape (w : world) (cfg : inputs) (d v : Z)
    (i : number) (t : list event) : Prop :=
  exists k s amt tail,
    toFixed (draw w cfg k) d = Ok s
    /\ parseUnits s d = Ok amt
    /\ t = [EvLog (MsgNominal i (loops cfg) s amt); EvSubscribe i amt v]
           ++ reply_events w i ++ tail
    /\ ((lt i (loops cfg) = false /\ tail = [])
        \/ (lt i (loops cfg) = true
            /\ tail = [EvLog (MsgWaiting (toFixed (delay_draw w cfg (S k)) 2));
                       EvSleep (requested_sleep w cfg (S k))])).

(** Calls to [subscribe] and to the [wait] of its transaction. *)
Definition is_submission_call (e : event) : bool :=
  match e with EvSubscribe _ _ _ | EvSubscribeWait _ => true | _ => false end.

(** A selection of events that keeps only events of the allowance
    check and calls of the loop. *)
Definition ledger_only (f : event -> bool) : Prop :=
  forall e, guard_event e = false -> is_submission_call e = false ->
            f e = false.

(** Submissions one at a time: an accepted submission is followed by the
    wait for its own confirmation, a rejected one by nothing. *)
Inductive sequential (w : world) : list event -> Prop :=
| sequential_nil : sequential w []
| sequential_sent i a v rest :
    subscribe_reply w i <> SendFails -> sequential w rest ->
    sequential w (EvSubscribe i a v :: EvSubscribeWait i :: rest)
| sequential_rejected i a v rest :
    subscribe_reply w i = SendFails -> sequential w rest ->
    sequential w (EvSubscribe i a v :: rest).

(** The script got past the connection phase, leaving [tc]. *)
Definition connected (w : world) (sh : shape) (tc : list event) : Prop :=
  env_present w = true /\ ethers_shape w = Some sh
  /\ connect w 0%nat = (tc, 0%nat, Returned tt).

(** The wallet address was read and the five answers pass lines 116-123. *)
Definition accepted (w : world) : Prop :=
  address_reply w = true /\ malformed (parsed w) = false
  /\ out_of_range (parsed w) = false.

(** What follows the loop: the closing line, or the handler of the outer
    [catch]. *)
Definition closing (r : outcome unit) : list event * outcome unit :=
  match r with
  | Returned _ => ([EvLog MsgDone], Returned tt)
  | Thrown e => ([EvLog (MsgFatal e); EvExit 1], Exited 1)
  | Exited c => ([], Exited c)
  | OutOfFuel => ([], OutOfFuel)
  end.

(** The ways a run can go, by the point it stops at. *)
Inductive run_end (w : world) (fuel : nat) :
    list event * outcome unit -> Prop :=
| end_missing_env :
    env_present w = false ->
    run_end w fuel ([EvLog MsgMissingEnv; EvExit 1], Exited 1)
| end_no_ethers :
    env_present w = true -> ethers_shape w = None ->
    run_end w fuel ([EvLog MsgNoEthers; EvExit 1], Exited 1)
| end_unreachable sh t' :
    env_present w = true -> ethers_shape w = Some sh ->
    forallb connect_event t' = true -> forallb no_exit t' = true ->
    run_end w fuel (t' ++ [EvExit 1], Exited 1)
| end_no_address sh tc :
    connected w sh tc -> address_reply w = false ->
    run_end w fuel
      (tc ++ [EvGetAddress; EvLog (MsgFatal CallRejected); EvExit 1],
       Exited 1)
| end_refused sh tc :
    connected w sh tc -> address_reply w = true ->
    (malformed (parsed w) || out_of_range (parsed w))%bool = true ->
    run_end w fuel
      (tc ++ prompts
          ++ [EvLog (if malformed (parsed w) then MsgInvalidInput
                     else MsgInvalidRange); EvExit 1], Exited 1)
| end_guard sh tc ta e :
    connected w sh tc -> accepted w ->
    ensure_allowance w sh (maxVal (parsed w)) 0%nat = (ta, 0%nat, Thrown e) ->
    run_end w fuel
      (tc ++ prompts ++ ta ++ [EvLog (MsgFatal e); EvExit 1], Exited 1)
| end_value sh tc ta d e :
    connected w sh tc -> accepted w ->
    ensure_allowance w sh (maxVal (parsed w)) 0%nat
      = (ta, 0%nat, Returned d) ->
    parseEther (SUBSCRIBE_VALUE w) = Err e ->
    run_end w fuel
      (tc ++ prompts ++ ta ++ [EvLog (MsgFatal e); EvExit 1], Exited 1)
| end_loop sh tc ta d v tl k r :
    connected w sh tc -> accepted w ->
    ensure_allowance w sh (maxVal (parsed w)) 0%nat
      = (ta, 0%nat, Returned d) ->
    parseEther (SUBSCRIBE_VALUE w) = Ok v ->
    subscribe_loop w (parsed w) d v fuel one 0%nat = (tl, k, r) ->
    run_end w fuel
      (tc ++ prompts ++ ta ++ [EvLog (MsgSubscribeValue v)] ++ tl
          ++ fst (closing r), snd (closing r)).


End Obs.

(* ===================================================================== *)
(** ** Concrete runs                                                       *)
(* ===================================================================== *)

Module Scenarios.
Import Num Str JS Ledger Bot.

(** A run described by the operator's five answers, the package shape,
    the token's decimals and allowance, and the replies to the approval
    and to each submission.  The endpoint answers from attempt [up] on,
    and [Math.random()] always answers [0.75]. *)
Definition scenario (sh : shape) (up : Z)
    (minS maxS loopsS delayMinS delayMaxS : string)
    (decimals allowance : Z) (approve : tx_reply)
    (subscribe : number -> tx_reply) : world :=
  {| env_present := true;
     ethers_shape := Some sh;
     SUBSCRIBE_VALUE := lit "0";
     network_up := fun k => up <=? k;
     address_reply := true;
     answer := fun q =>
       match q with
       | AskMin => lit minS
       | AskMax => lit maxS
       | AskLoops => lit loopsS
       | AskDelayMin => lit delayMinS
       | AskDelayMax => lit delayMaxS
       end;
     decimals_reply := Some decimals;
     allowance_reply := Some allowance;
     approve_reply := approve;
     random := fun _ => of_decimal 75 (-2);
     subscribe_reply := subscribe |}.

(** Scenarios A and C of the specification: amounts in 0.1 .. 0.5, three
    iterations one second apart, six decimals; the endpoint answers on the
    second attempt, the allowance is empty, and the confirmation of the
    second submission fails. *)
Definition three_loops : world :=
  scenario V6 2 "0.1" "0.5" "3" "1" "1" 6 0 Confirmed
    (fun i => if le i (of_Z 1) then Confirmed
              else if le i (of_Z 2) then WaitFails else Confirmed).

(** Scenario D: a loop count of zero. *)
Definition zero_loops : world :=
  scenario V6 1 "0.1" "0.5" "0" "1" "1" 6 0 Confirmed (fun _ => Confirmed).

(** A non-numeric minimum amount. *)
Definition malformed_min : world :=
  scenario V6 1 "abc" "0.5" "3" "1" "1" 6 0 Confirmed (fun _ => Confirmed).

(** The approval is submitted and its confirmation fails. *)
Definition approval_fails : world :=
  scenario V6 1 "0.1" "0.5" "3" "1" "1" 6 0 WaitFails (fun _ => Confirmed).

(** Shape V5 with an allowance of 1 token (1000000 units) against a
    maximum of 0.5 (500000 units). *)
Definition v5_sufficient : world :=
  scenario V5 1 "0.1" "0.5" "1" "1" "1" 6 1000000 Confirmed
    (fun _ => Confirmed).

(** The same holdings under shape V6. *)
Definition v6_sufficient : world :=
  scenario V6 1 "0.1" "0.5" "1" "1" "1" 6 1000000 Confirmed
    (fun _ => Confirmed).




(** A token of 101 decimals, under shape V5. *)
Definition decimals_101 : world :=
  scenario V5 1 "0.1" "0.5" "3" "1" "1" 101 0 Confirmed (fun _ => Confirmed).

(** Minimum and maximum both 0.1, eighteen decimals. *)
Definition equal_bounds : world :=
  scenario V6 1 "0.1" "0.1" "1" "1" "1" 18 0 Confirmed (fun _ => Confirmed).

(** The operator answers the loop-count prompt with a blank line. *)
Definition blank_loops : world :=
  scenario V6 1 "0.1" "0.5" "  " "1" "1" 6 0 Confirmed (fun _ => Confirmed).

End Scenarios.

(* ===================================================================== *)
(** * Theorems                                                             *)
(* ===================================================================== *)


Module NumFacts.
Import Num.

(** *** Rounding to the nearest integer *)

Lemma rne_bounds p q : 0 < q -> p / q <= rne p q <= p / q + 1.
Proof.
  intros Hq. unfold rne.
  destruct (2 * (p mod q) ?= q); [destruct (Z.even (p / q))| |]; lia.
Qed.

Lemma rne_le_int p q N : 0 < q -> p <= N * q -> rne p q <= N.
Proof.
  intros Hq H. pose proof (Z.div_mod p q ltac:(lia)) as E.
  pose proof (Z.mod_pos_bound p q Hq) as B.
  assert (Hf : p / q <= N) by (apply Z.div_le_upper_bound; lia).
  unfold rne. destruct (Z.eq_dec (p / q) N) as [EN|NE].
  - assert (p mod q = 0) by nia.
    rewrite H0. replace (2 * 0 ?= q) with Lt by (symmetry; apply Z.compare_lt_iff; lia).
    lia.
  - destruct (2 * (p mod q) ?= q); [destruct (Z.even (p / q))| |]; lia.
Qed.

Lemma rne_ge_int p q N : 0 < q -> N * q <= p -> N <= rne p q.
Proof.
  intros Hq H. pose proof (rne_bounds p q Hq).
  assert (N <= p / q) by (apply Z.div_le_lower_bound; lia). lia.
Qed.

Lemma rne_below_half p q N : 0 < q -> 2 * p < (2 * N + 1) * q -> rne p q <= N.
Proof.
  intros Hq H. pose proof (Z.div_mod p q ltac:(lia)) as E.
  pose proof (Z.mod_pos_bound p q Hq) as B.
  assert (Hf : p / q <= N).
  { assert (p / q < N + 1) by (apply Z.div_lt_upper_bound; nia). lia. }
  unfold rne. destruct (Z.eq_dec (p / q) N) as [EN|NE].
  - replace (2 * (p mod q) ?= q) with Lt; [lia|].
    symmetry. apply Z.compare_lt_iff. nia.
  - destruct (2 * (p mod q) ?= q); [destruct (Z.even (p / q))| |]; lia.
Qed.

(** The quotient and the rounding depend on the fraction only. *)
Lemma div_ext p q p' q' :
  0 < q -> 0 < q' -> p * q' = p' * q -> p / q = p' / q'.
Proof.
  intros Hq Hq' E.
  pose proof (Z.div_mod p q ltac:(lia)) as D.
  pose proof (Z.mod_pos_bound p q Hq) as B.
  set (f := p / q) in *. set (r := p mod q) in *.
  assert (Hlo : q' * f <= p').
  { apply (Z.mul_le_mono_pos_r _ _ q); nia. }
  assert (Hhi : p' < q' * (f + 1)).
  { apply (Z.mul_lt_mono_pos_r q); nia. }
  apply (Z.div_unique p' q' f (p' - q' * f)); lia.
Qed.

Lemma rne_ext p q p' q' :
  0 < q -> 0 < q' -> p * q' = p' * q -> rne p q = rne p' q'.
Proof.
  intros Hq Hq' E. unfold rne.
  rewrite (div_ext p q p' q' Hq Hq' E).
  replace (2 * (p mod q) ?= q) with (2 * (p' mod q') ?= q'); [reflexivity|].
  rewrite !Z.mod_eq by lia. rewrite (div_ext p q p' q' Hq Hq' E).
  set (f := p' / q').
  destruct (Z.compare_spec (2 * (p - q * f)) q) as [C|C|C];
    [apply Z.compare_eq_iff | apply Z.compare_lt_iff | apply Z.compare_gt_iff].
  - apply (Z.mul_cancel_r _ _ q); nia.
  - apply (Z.mul_lt_mono_pos_r q); nia.
  - apply (Z.mul_lt_mono_pos_r q); nia.
Qed.

(** *** The binary64 grid *)

Lemma shift_nonneg a : 0 <= shift a.
Proof. unfold shift. lia. Qed.

Lemma shift_mono a b : a <= b -> shift a <= shift b.
Proof. intros H. unfold shift. pose proof (Z.log2_le_mono a b H). lia. Qed.


Lemma pow2_pos s : 0 <= s -> 0 < 2 ^ s.
Proof. intros H. apply Z.pow_pos_nonneg; lia. Qed.

(** A multiple of [2^t] is a multiple of [2^s] for [s <= t]. *)
Lemma multiple_down g s t :
  0 <= s <= t -> g mod 2 ^ t = 0 -> g = g / 2 ^ s * 2 ^ s.
Proof.
  intros H Hm. pose proof (pow2_pos s ltac:(lia)) as Ps.
  pose proof (pow2_pos t ltac:(lia)) as Pt.
  apply Z.mod_divide in Hm; [|lia]. destruct Hm as [k Hk].
  replace (2 ^ t) with (2 ^ (t - s) * 2 ^ s) in Hk
    by (rewrite <- Z.pow_add_r by lia; f_equal; lia).
  rewrite Hk at 1 2. rewrite Z.mul_assoc, Z.div_mul by lia. reflexivity.
Qed.

Lemma aligned_multiple g s :
  aligned g -> 0 <= s <= shift g -> g = g / 2 ^ s * 2 ^ s.
Proof. intros A H. apply (multiple_down g s (shift g)); assumption. Qed.

(** Rounding never crosses a grid point from below ... *)
Lemma round_le_grid p q g :
  0 <= p -> 0 < q -> aligned g -> p <= g * q -> round_units p q <= g.
Proof.
  intros Hp Hq A H. unfold round_units.
  assert (Hf : p / q <= g) by (apply Z.div_le_upper_bound; lia).
  set (s := shift (p / q)).
  pose proof (shift_nonneg (p / q)) as Hs. fold s in Hs.
  pose proof (shift_mono _ _ Hf) as Hsg. fold s in Hsg.
  pose proof (pow2_pos s Hs) as Ps.
  rewrite (aligned_multiple g s A ltac:(lia)) at 1.
  apply Z.mul_le_mono_nonneg_r; [lia|].
  apply rne_le_int; [nia|].
  rewrite Z.mul_assoc, (Z.mul_comm _ q), <- Z.mul_assoc, (Z.mul_comm q).
  rewrite <- (aligned_multiple g s A ltac:(lia)). lia.
Qed.

Lemma log2_shift a : 0 < shift a -> Z.log2 a = shift a + 52.
Proof. unfold shift. lia. Qed.

(** ... nor from above. *)
Lemma round_ge_grid p q g :
  0 < q -> 0 <= g -> aligned g -> g * q <= p -> g <= round_units p q.
Proof.
  intros Hq Hg A H. unfold round_units.
  assert (Hf : g <= p / q) by (apply Z.div_le_lower_bound; lia).
  set (f := p / q) in *. set (s := shift f).
  pose proof (shift_nonneg f) as Hs. fold s in Hs.
  pose proof (shift_mono _ _ Hf) as Hsg. fold s in Hsg.
  pose proof (pow2_pos s Hs) as Ps.
  destruct (Z.eq_dec s (shift g)) as [E|NE].
  - rewrite (aligned_multiple g s A ltac:(lia)) at 1.
    apply Z.mul_le_mono_nonneg_r; [lia|].
    apply rne_ge_int; [nia|].
    rewrite Z.mul_assoc, (Z.mul_comm _ q), <- Z.mul_assoc, (Z.mul_comm q).
    rewrite <- (aligned_multiple g s A ltac:(lia)). lia.
  - (* [f] lies in a higher binade than [g] *)
    assert (Hs0 : 0 < s) by (pose proof (shift_nonneg g); lia).
    pose proof (log2_shift f Hs0) as Lf. fold s in Lf.
    assert (Fpos : 0 < f).
    { destruct (Z.le_gt_cases f 0) as [F0|]; [|lia].
      rewrite (Z.log2_nonpos f F0) in Lf. lia. }
    pose proof (Z.log2_spec f Fpos) as [Flo _]. rewrite Lf in Flo.
    assert (Glt : g < 2 ^ (s + 52)).
    { destruct (Z.eq_dec g 0) as [->|G0]; [apply pow2_pos; lia|].
      pose proof (Z.log2_spec g ltac:(lia)) as [_ Ghi].
      eapply Z.lt_le_trans; [exact Ghi|].
      apply Z.pow_le_mono_r; [lia|]. unfold shift in Hsg, NE. lia. }
    assert (2 ^ 52 <= rne p (q * 2 ^ s)).
    { apply rne_ge_int; [nia|].
      assert (f * q <= p).
      { subst f. pose proof (Z.mul_div_le p q Hq). lia. }
      rewrite Z.pow_add_r in Flo by lia. nia. }
    rewrite Z.pow_add_r in Glt by lia. nia.
Qed.

(** Grid points are fixed by rounding. *)
Lemma round_grid_exact g q :
  0 < q -> 0 <= g -> aligned g -> round_units (g * q) q = g.
Proof.
  intros Hq Hg A. apply Z.le_antisymm.
  - apply round_le_grid; try assumption; nia.
  - apply round_ge_grid; try assumption; lia.
Qed.

Lemma round_nonneg p q : 0 <= p -> 0 < q -> 0 <= round_units p q.
Proof.
  intros Hp Hq. apply round_ge_grid; try lia. reflexivity.
Qed.

Lemma round_ext p q p' q' :
  0 < q -> 0 < q' -> p * q' = p' * q -> round_units p q = round_units p' q'.
Proof.
  intros Hq Hq' E. unfold round_units.
  rewrite (div_ext p q p' q' Hq Hq' E).
  set (s := shift (p' / q')).
  pose proof (pow2_pos s (shift_nonneg _)) as Ps.
  f_equal. apply rne_ext; nia.
Qed.


(** The mantissa of a quotient by the spacing stays below [2^53]. *)
Lemma mantissa_bound f :
  0 <= f -> f / 2 ^ shift f < 2 ^ 53.
Proof.
  intros Hf. pose proof (shift_nonneg f) as Hs.
  pose proof (pow2_pos (shift f) Hs) as Ps.
  apply Z.div_lt_upper_bound; [lia|].
  rewrite <- Z.pow_add_r by lia.
  destruct (Z.eq_dec f 0) as [->|F0]; [apply pow2_pos; lia|].
  pose proof (Z.log2_spec f ltac:(lia)) as [_ Hhi].
  eapply Z.lt_le_trans; [exact Hhi|].
  apply Z.pow_le_mono_r; [lia|]. unfold shift. lia.
Qed.

Lemma aligned_0 : aligned 0.
Proof. reflexivity. Qed.

(** A multiple [m * 2^s] with [m <= 2^53] is on the grid. *)
Lemma aligned_multiple_intro m s :
  0 <= s -> 0 <= m <= 2 ^ 53 -> aligned (m * 2 ^ s).
Proof.
  intros Hs Hm. pose proof (pow2_pos s Hs) as Ps. unfold aligned.
  set (R := m * 2 ^ s).
  destruct (Z.eq_dec R 0) as [->|R0]; [reflexivity|].
  assert (Rpos : 0 < R) by (subst R; nia).
  pose proof (shift_nonneg R) as HsR.
  destruct (Z.eq_dec m (2 ^ 53)) as [E|NE].
  - subst R. rewrite E, <- Z.pow_add_r by lia.
    unfold shift. rewrite Z.log2_pow2 by lia.
    replace (Z.max 0 (53 + s - 52)) with (s + 1) by lia.
    replace (53 + s) with (52 + (s + 1)) by lia.
    rewrite Z.pow_add_r by lia. apply Z.mod_mul.
    pose proof (pow2_pos (s + 1) ltac:(lia)). lia.
  - assert (HR : R < 2 ^ (53 + s)).
    { subst R. rewrite Z.pow_add_r by lia. nia. }
    assert (Z.log2 R < 53 + s) by (apply Z.log2_lt_pow2; lia).
    assert (shift R <= s) by (unfold shift; lia).
    set (t := shift R) in *. subst R.
    replace (2 ^ s) with (2 ^ (s - t) * 2 ^ t)
      by (rewrite <- Z.pow_add_r by lia; f_equal; lia).
    rewrite Z.mul_assoc. apply Z.mod_mul.
    pose proof (pow2_pos t HsR). lia.
Qed.

(** The result of rounding is on the grid. *)
Lemma round_aligned p q : 0 <= p -> 0 < q -> aligned (round_units p q).
Proof.
  intros Hp Hq. unfold round_units.
  set (f := p / q). assert (Hf : 0 <= f) by (apply Z.div_pos; lia).
  pose proof (shift_nonneg f) as Hs.
  pose proof (pow2_pos (shift f) Hs) as Ps.
  apply aligned_multiple_intro; [exact Hs|].
  pose proof (rne_bounds p (q * 2 ^ shift f) ltac:(nia)) as B.
  rewrite <- Z.div_div in B by lia. fold f in B.
  pose proof (mantissa_bound f Hf).
  assert (0 <= f / 2 ^ shift f) by (apply Z.div_pos; lia).
  lia.
Qed.

(** Two numbers of one binade have one spacing. *)
Lemma shift_same_binade g f :
  0 <= g -> aligned g -> g <= f < g + 2 ^ shift g -> shift f = shift g.
Proof.
  intros Hg A [Hlo Hhi]. pose proof (shift_nonneg g) as Hs.
  pose proof (pow2_pos (shift g) Hs) as Ps.
  destruct (Z.eq_dec g 0) as [->|G0].
  - change (shift 0) with 0 in *. change (2 ^ 0) with 1 in Hhi.
    replace f with 0 by lia. reflexivity.
  - unfold shift. f_equal. f_equal.
    set (L := Z.log2 g). pose proof (Z.log2_nonneg g) as HL. fold L in HL.
    pose proof (Z.log2_spec g ltac:(lia)) as [Glo Ghi]. fold L in Glo, Ghi.
    apply Z.log2_unique; [exact HL|]. split; [lia|].
    assert (Hsl : shift g <= L) by (unfold shift; fold L; lia).
    pose proof (aligned_multiple g (shift g) A ltac:(lia)) as Eg.
    set (s := shift g) in *. set (N := g / 2 ^ s) in *.
    replace (Z.succ L) with ((L + 1 - s) + s) in * by lia.
    rewrite Z.pow_add_r in * by lia.
    pose proof (pow2_pos (L + 1 - s) ltac:(lia)).
    assert (N < 2 ^ (L + 1 - s)) by nia.
    nia.
Qed.

(** Below the midpoint above a grid point, rounding stays at or below it. *)
Lemma round_below_half p q g :
  0 <= p -> 0 < q -> 0 <= g -> aligned g ->
  2 * p < (2 * g + 2 ^ shift g) * q -> round_units p q <= g.
Proof.
  intros Hp Hq Hg A H. pose proof (shift_nonneg g) as Hs.
  pose proof (pow2_pos (shift g) Hs) as Ps.
  destruct (Z.le_gt_cases p (g * q)) as [Hle|Hgt];
    [apply round_le_grid; assumption|].
  assert (Hf : g <= p / q < g + 2 ^ shift g).
  { split; [apply Z.div_le_lower_bound; lia|].
    apply Z.div_lt_upper_bound; nia. }
  unfold round_units. rewrite (shift_same_binade g (p / q) Hg A Hf).
  set (s := shift g) in *.
  rewrite (aligned_multiple g s A ltac:(lia)) at 1.
  apply Z.mul_le_mono_nonneg_r; [lia|].
  apply rne_below_half; [nia|].
  replace ((2 * (g / 2 ^ s) + 1) * (q * 2 ^ s))
    with ((2 * (g / 2 ^ s * 2 ^ s) + 2 ^ s) * q) by ring.
  rewrite <- (aligned_multiple g s A ltac:(lia)). exact H.
Qed.


(** When an integer is rounded up, the grid point below it lies in the
    same binade, one spacing under the result. *)
Lemma round_up_pred c :
  0 <= c -> c < round_units c 1 ->
  exists g, aligned g /\ 0 <= g <= c /\ shift g = shift c
    /\ round_units c 1 = g + 2 ^ shift c /\ 2 ^ (52 + shift c) <= g.
Proof.
  intros Hc Hup. pose proof (shift_nonneg c) as Hs.
  pose proof (pow2_pos (shift c) Hs) as Ps.
  unfold round_units in *. rewrite Z.div_1_r, Z.mul_1_l in *.
  set (s := shift c) in *.
  pose proof (rne_bounds c (2 ^ s) Ps) as B.
  pose proof (Z.mul_div_le c (2 ^ s) Ps) as Hg.
  assert (Hr : rne c (2 ^ s) = c / 2 ^ s + 1) by nia.
  assert (Hs0 : 0 < s).
  { destruct (Z.eq_dec s 0) as [E|]; [|lia]. exfalso.
    rewrite E in *. change (2 ^ 0) with 1 in *.
    unfold rne in Hr. rewrite Z.mod_1_r in Hr. cbn in Hr. lia. }
  pose proof (log2_shift c Hs0) as L. fold s in L.
  assert (Cpos : 0 < c).
  { destruct (Z.le_gt_cases c 0) as [C0|]; [|lia].
    rewrite (Z.log2_nonpos c C0) in L. lia. }
  pose proof (Z.log2_spec c Cpos) as [Clo Chi]. rewrite L in Clo, Chi.
  assert (Hfl : 2 ^ 52 <= c / 2 ^ s).
  { apply Z.div_le_lower_bound; [lia|].
    rewrite <- Z.pow_add_r by lia. lia. }
  set (g := c / 2 ^ s * 2 ^ s).
  assert (Glo : 2 ^ (52 + s) <= g).
  { subst g. rewrite Z.pow_add_r by lia. nia. }
  assert (Gle : g <= c) by (subst g; lia).
  assert (Sg : shift g = s).
  { unfold shift. rewrite (Z.log2_unique g (s + 52)); [lia|lia|].
    split; [rewrite Z.add_comm; exact Glo|lia]. }
  exists g. split; [|split; [|split; [|split]]].
  - unfold aligned. rewrite Sg. subst g. apply Z.mod_mul. lia.
  - pose proof (pow2_pos (52 + s) ltac:(lia)). lia.
  - exact Sg.
  - rewrite Hr. subst g. ring.
  - exact Glo.
Qed.

(** A binary64 below one is at most [1 - 2^-53]. *)
Lemma below_one_bound r :
  0 <= r < unit_scale -> aligned r ->
  2 ^ 53 * r <= (2 ^ 53 - 1) * unit_scale.
Proof.
  unfold unit_scale. intros [Hr0 Hr1] A.
  pose proof (shift_nonneg r) as Hs.
  pose proof (pow2_pos (shift r) Hs) as Ps.
  pose proof (mantissa_bound r Hr0) as M.
  pose proof (aligned_multiple r (shift r) A ltac:(lia)) as E.
  assert (Hs1 : shift r <= 1021).
  { destruct (Z.eq_dec r 0) as [->|R0]; [cbn; lia|].
    assert (Z.log2 r < 1074) by (apply Z.log2_lt_pow2; lia).
    unfold shift. lia. }
  assert (2 ^ shift r <= 2 ^ 1021) by (apply Z.pow_le_mono_r; lia).
  assert (0 <= r / 2 ^ shift r) by (apply Z.div_pos; lia).
  replace (2 ^ 1074) with (2 ^ 53 * 2 ^ 1021)
    by (rewrite <- Z.pow_add_r by lia; reflexivity).
  set (N := r / 2 ^ shift r) in *. set (T := 2 ^ shift r) in *.
  set (A53 := 2 ^ 53) in *. set (B := 2 ^ 1021) in *.
  assert (0 < A53) by (subst A53; apply pow2_pos; lia).
  rewrite E.
  assert (N * T <= (A53 - 1) * B) by (apply Z.mul_le_mono_nonneg; lia).
  nia.
Qed.


Lemma on_grid_iff a : on_grid a = true <-> aligned a /\ a <= max_units.
Proof.
  unfold on_grid, aligned. rewrite andb_true_iff, Z.eqb_eq, Z.leb_le. tauto.
Qed.

Lemma of_rat_nonneg p q :
  0 <= p -> round_units p q <= max_units ->
  of_rat p q = Fin (round_units p q).
Proof.
  intros Hp Hm. unfold of_rat.
  replace (p <? 0) with false by (symmetry; apply Z.ltb_ge; lia).
  rewrite Z.abs_eq by lia.
  replace (max_units <? round_units p q) with false
    by (symmetry; apply Z.ltb_ge; lia).
  reflexivity.
Qed.

(** [r * (hi - lo) + lo] stays within [[lo, hi]] in binary64 arithmetic,
    for [0 <= r < 1] and [0 <= lo <= hi]. *)
Lemma affine_range r lo hi :
  0 <= r < unit_scale -> on_grid r = true ->
  0 <= lo <= hi -> on_grid lo = true -> on_grid hi = true ->
  exists v, add (mul (Fin r) (sub (Fin hi) (Fin lo))) (Fin lo) = Fin v
    /\ lo <= v <= hi /\ on_grid v = true.
Proof.
  intros Hr Gr Hlh Glo Ghi.
  apply on_grid_iff in Gr as [Ar _]. apply on_grid_iff in Glo as [Alo _].
  apply on_grid_iff in Ghi as [Ahi Mhi].
  assert (U0 : 0 < unit_scale) by (apply pow2_pos; lia).
  set (c := hi - lo). assert (Hc : 0 <= c) by (subst c; lia).
  (* the difference *)
  set (D := round_units c 1).
  assert (HD : 0 <= D <= hi).
  { split; [apply round_nonneg; lia|].
    apply round_le_grid; try assumption; lia. }
  assert (AD : aligned D) by (apply round_aligned; lia).
  assert (Esub : sub (Fin hi) (Fin lo) = Fin D).
  { unfold sub, opp, add. replace (hi + - lo) with c by (subst c; lia).
    apply of_rat_nonneg; lia. }
  (* the product *)
  set (P := round_units (r * D) unit_scale).
  assert (HP0 : 0 <= P) by (apply round_nonneg; nia).
  assert (HPc : P <= c).
  { destruct (Z.le_gt_cases D c) as [Hle|Hup].
    - apply Z.le_trans with D; [|exact Hle].
      apply round_le_grid; try assumption; nia.
    - destruct (round_up_pred c Hc Hup) as (g & Ag & Hg & Sg & Eg & Bg).
      apply Z.le_trans with g; [|lia].
      apply round_below_half; try assumption; try nia.
      rewrite Sg. fold D in Eg.
      pose proof (below_one_bound r Hr Ar) as Br.
      pose proof (shift_nonneg c) as Hs.
      pose proof (pow2_pos (shift c) Hs) as Ps.
      rewrite Z.pow_add_r in Bg by lia.
      set (T := 2 ^ shift c) in *. set (A52 := 2 ^ 52) in *.
      replace (2 ^ 53) with (2 * A52) in Br by reflexivity.
      assert (0 < A52) by (subst A52; apply pow2_pos; lia).
      assert (HDg : A52 * T < D) by lia.
      (* 2 A52 (2 r D) <= 2 (2 A52 - 1) U D < 2 A52 (2 g + T) U *)
      apply (Z.mul_lt_mono_pos_l (2 * A52)); [lia|].
      apply Z.le_lt_trans with (2 * ((2 * A52 - 1) * unit_scale) * D); [nia|].
      replace (2 * g + T) with (2 * D - T) by lia. nia. }
  assert (Emul : mul (Fin r) (Fin D) = Fin P).
  { unfold mul. apply of_rat_nonneg; [nia|]. subst P. lia. }
  (* the sum *)
  set (S := round_units (P + lo) 1).
  assert (HS : lo <= S <= hi).
  { split.
    - apply round_ge_grid; try assumption; lia.
    - apply round_le_grid; try assumption; lia. }
  exists S. rewrite Esub, Emul. split; [|split; [exact HS|]].
  - unfold add. apply of_rat_nonneg; lia.
  - apply on_grid_iff. split; [apply round_aligned; lia|lia].
Qed.


Lemma of_rat_ext p q p' q' :
  0 < q -> 0 < q' -> p * q' = p' * q -> of_rat p q = of_rat p' q'.
Proof.
  intros Hq Hq' E. unfold of_rat.
  assert (Es : (p <? 0) = (p' <? 0)).
  { destruct (Z.ltb_spec p 0), (Z.ltb_spec p' 0); try reflexivity; nia. }
  rewrite Es, (round_ext (Z.abs p) q (Z.abs p') q'); try assumption.
  - reflexivity.
  - destruct (Z.ltb_spec p 0), (Z.ltb_spec p' 0); try discriminate; nia.
Qed.

Lemma of_rat_Fin_inv p q a :
  0 <= p -> of_rat p q = Fin a -> round_units p q = a /\ a <= max_units.
Proof.
  intros Hp. unfold of_rat.
  replace (p <? 0) with false by (symmetry; apply Z.ltb_ge; lia).
  rewrite Z.abs_eq by lia.
  destruct (Z.ltb_spec max_units (round_units p q)); [discriminate|].
  intros [= <-]. split; [reflexivity|assumption].
Qed.

Lemma pow10_pos k : 0 <= k -> 0 < 10 ^ k.
Proof. intros H. apply Z.pow_pos_nonneg; lia. Qed.

(** [of_decimal] as one rounding: [n * 10^e] is [n * 10^(e + k) / 10^k]. *)
Lemma of_decimal_rat n e k :
  0 <= k -> 0 <= e + k ->
  of_decimal n e = of_rat (n * 10 ^ (e + k) * unit_scale) (10 ^ k).
Proof.
  intros Hk Hek. unfold of_decimal.
  pose proof (pow10_pos k Hk) as Pk.
  destruct (Z.leb_spec 0 e) as [He|He].
  - apply of_rat_ext; try lia.
    rewrite Z.pow_add_r by lia. ring.
  - pose proof (pow10_pos (- e) ltac:(lia)) as Pe.
    apply of_rat_ext; try lia.
    replace k with ((e + k) + - e) at 1 by lia.
    rewrite Z.pow_add_r by lia. ring.
Qed.


(** *** Small integers *)

Lemma unit_scale_pos : 0 < unit_scale.
Proof. apply pow2_pos. lia. Qed.

Lemma small_int_on_grid j :
  0 <= j <= 2 ^ 53 -> aligned (j * unit_scale) /\ j * unit_scale <= max_units.
Proof.
  intros Hj. split.
  - apply aligned_multiple_intro; lia.
  - unfold unit_scale, max_units.
    pose proof (pow2_pos 1074 ltac:(lia)) as P.
    apply Z.le_trans with (2 ^ 53 * 2 ^ 1074); [nia|].
    replace (2 ^ 2045) with (2 ^ 971 * 2 ^ 1074)
      by (rewrite <- Z.pow_add_r by lia; reflexivity).
    assert (2 ^ 53 <= (2 ^ 53 - 1) * 2 ^ 971) by (vm_compute; discriminate).
    nia.
Qed.





End NumFacts.


Module StrFacts.
Import Str.

Lemma code_digit_char d : 0 <= d <= 9 -> code (digit_char d) = 48 + d.
Proof.
  intros H. unfold code, digit_char.
  rewrite N_ascii_embedding by lia. lia.
Qed.

Lemma is_digit_digit_char d : 0 <= d <= 9 -> is_digit (digit_char d) = true.
Proof.
  intros H. unfold is_digit. rewrite code_digit_char by lia.
  apply andb_true_intro; split; apply Z.leb_le; lia.
Qed.

Lemma digit_val_digit_char d : 0 <= d <= 9 -> digit_val (digit_char d) = d.
Proof. intros H. unfold digit_val. rewrite code_digit_char by lia. lia. Qed.

Lemma is_digit_range c : is_digit c = true -> 0 <= digit_val c <= 9.
Proof.
  unfold is_digit, digit_val. intros H.
  apply andb_prop in H as [H1 H2]. apply Z.leb_le in H1, H2. lia.
Qed.

(** Horner evaluation from an arbitrary accumulator. *)
Lemma fold_digits_acc s : forall acc,
  fold_left (fun a c => a * 10 + digit_val c) s acc
  = acc * 10 ^ Z.of_nat (length s) + digits_val s.
Proof.
  unfold digits_val.
  induction s as [|c s IH]; intros acc.
  - cbn [fold_left length]. change (Z.of_nat 0) with 0. lia.
  - cbn [fold_left length]. rewrite IH, (IH (0 * 10 + digit_val c)).
    rewrite Nat2Z.inj_succ, Z.pow_succ_r by lia. ring.
Qed.

Lemma digits_val_app s t :
  digits_val (s ++ t) = digits_val s * 10 ^ Z.of_nat (length t) + digits_val t.
Proof. unfold digits_val at 1. rewrite fold_left_app. apply fold_digits_acc. Qed.

Lemma digits_val_cons c s :
  digits_val (c :: s) = digit_val c * 10 ^ Z.of_nat (length s) + digits_val s.
Proof. apply (digits_val_app [c] s). Qed.

Lemma digits_val_zeros k : digits_val (zeros k) = 0.
Proof.
  induction k as [|k IH]; [reflexivity|].
  unfold zeros in *. cbn [repeat]. rewrite digits_val_cons, IH. reflexivity.
Qed.

Lemma length_zeros k : length (zeros k) = k.
Proof. apply repeat_length. Qed.

Lemma forallb_digit_zeros k : forallb is_digit (zeros k) = true.
Proof. induction k; [reflexivity|]. cbn. exact IHk. Qed.

Lemma digits_val_bounds s :
  forallb is_digit s = true -> 0 <= digits_val s < 10 ^ Z.of_nat (length s).
Proof.
  induction s as [|c s IH] using rev_ind; intros H.
  - cbn. lia.
  - rewrite forallb_app in H. apply andb_prop in H as [H1 H2].
    cbn in H2. rewrite andb_true_r in H2. apply is_digit_range in H2.
    specialize (IH H1). rewrite digits_val_app, length_app.
    cbn [length]. rewrite Nat2Z.inj_add. change (Z.of_nat 1) with 1.
    rewrite Z.pow_add_r, Z.pow_1_r by lia.
    change (digits_val [c]) with (0 * 10 + digit_val c). lia.
Qed.

Lemma digits_from_S f n acc :
  digits_from (S f) n acc
  = if n <? 10 then digit_char (n mod 10) :: acc
    else digits_from f (n / 10) (digit_char (n mod 10) :: acc).
Proof. reflexivity. Qed.

(** The digits of [n], pushed in front of an accumulator. *)
Lemma digits_from_spec f : forall n acc,
  0 <= n < 2 ^ Z.of_nat (S f) ->
  exists ds, digits_from (S f) n acc = ds ++ acc
    /\ forallb is_digit ds = true
    /\ digits_val ds = n
    /\ (0 < n -> 10 ^ (Z.of_nat (length ds) - 1) <= n)
    /\ (0 < length ds)%nat.
Proof.
  assert (single : forall n acc, 0 <= n < 10 ->
    exists ds, digit_char (n mod 10) :: acc = ds ++ acc
      /\ forallb is_digit ds = true /\ digits_val ds = n
      /\ (0 < n -> 10 ^ (Z.of_nat (length ds) - 1) <= n)
      /\ (0 < length ds)%nat).
  { intros n acc Hn. exists [digit_char n]. rewrite Z.mod_small by lia.
    split; [reflexivity|]. split.
    - cbn. rewrite is_digit_digit_char by lia. reflexivity.
    - split; [|split].
      + unfold digits_val. cbn. apply digit_val_digit_char. lia.
      + cbn. lia.
      + cbn. lia. }
  induction f as [|f IH]; intros n acc H.
  - change (2 ^ Z.of_nat 1) with 2 in H. rewrite digits_from_S.
    replace (n <? 10) with true by (symmetry; apply Z.ltb_lt; lia).
    apply single. lia.
  - rewrite digits_from_S. destruct (Z.ltb_spec n 10) as [Hlt|Hge].
    + apply single. lia.
    + assert (Hq : 0 <= n / 10 < 2 ^ Z.of_nat (S f)).
      { split; [apply Z.div_pos; lia|].
        apply Z.div_lt_upper_bound; [lia|].
        rewrite (Nat2Z.inj_succ (S f)), Z.pow_succ_r in H by lia. lia. }
      destruct (IH (n / 10) (digit_char (n mod 10) :: acc) Hq)
        as (ds & E & Hd & Hv & Hlen & Hpos).
      exists (ds ++ [digit_char (n mod 10)]).
      pose proof (Z.mod_pos_bound n 10 ltac:(lia)) as Hm.
      split; [rewrite E, <- app_assoc; reflexivity|].
      split; [|split; [|split]].
      * rewrite forallb_app, Hd. cbn.
        rewrite is_digit_digit_char by lia. reflexivity.
      * rewrite digits_val_app, Hv. cbn [length].
        change (digits_val [digit_char (n mod 10)])
          with (0 * 10 + digit_val (digit_char (n mod 10))).
        rewrite digit_val_digit_char by lia.
        change (10 ^ Z.of_nat 1) with 10.
        pose proof (Z.div_mod n 10 ltac:(lia)). lia.
      * intros _. rewrite length_app. cbn [length].
        rewrite Nat2Z.inj_add. change (Z.of_nat 1) with 1.
        replace (Z.of_nat (length ds) + 1 - 1)
          with (Z.succ (Z.of_nat (length ds) - 1)) by lia.
        rewrite Z.pow_succ_r by lia.
        assert (0 < n / 10) by (apply Z.div_str_pos; lia).
        specialize (Hlen H0).
        pose proof (Z.div_mod n 10 ltac:(lia)). lia.
      * rewrite length_app. cbn. lia.
Qed.

Lemma digits_of_spec n :
  0 <= n ->
  forallb is_digit (digits_of n) = true
  /\ digits_val (digits_of n) = n
  /\ (0 < n -> 10 ^ (Z.of_nat (length (digits_of n)) - 1) <= n)
  /\ (0 < length (digits_of n))%nat.
Proof.
  intros Hn. unfold digits_of.
  destruct (digits_from_spec (Z.to_nat (Z.log2 n)) n []) as (ds & E & H).
  - split; [lia|]. rewrite Nat2Z.inj_succ, Z2Nat.id by apply Z.log2_nonneg.
    destruct (Z.eq_dec n 0) as [->|]; [cbn; lia|].
    apply Z.log2_spec. lia.
  - rewrite E, app_nil_r. exact H.
Qed.



Lemma digits_of_nonempty n : 0 <= n -> (0 < length (digits_of n))%nat.
Proof. intros H. apply (digits_of_spec n H). Qed.

Lemma take_while_app p s c t :
  forallb p s = true -> p c = false -> take_while p (s ++ c :: t) = s.
Proof.
  intros Hs Hc. induction s as [|a s IH]; cbn in *.
  - rewrite Hc. reflexivity.
  - apply andb_prop in Hs as [Ha Hs]. rewrite Ha, IH by assumption. reflexivity.
Qed.

Lemma drop_while_app p s c t :
  forallb p s = true -> p c = false -> drop_while p (s ++ c :: t) = c :: t.
Proof.
  intros Hs Hc. induction s as [|a s IH]; cbn in *.
  - rewrite Hc. reflexivity.
  - apply andb_prop in Hs as [Ha Hs]. rewrite Ha. apply IH. assumption.
Qed.

Lemma take_while_all p s : forallb p s = true -> take_while p s = s.
Proof.
  intros Hs. induction s as [|a s IH]; cbn in *; [reflexivity|].
  apply andb_prop in Hs as [Ha Hs]. rewrite Ha, IH by assumption. reflexivity.
Qed.

Lemma drop_while_all p s : forallb p s = true -> drop_while p s = [].
Proof.
  intros Hs. induction s as [|a s IH]; cbn in *; [reflexivity|].
  apply andb_prop in Hs as [Ha Hs]. rewrite Ha. apply IH. assumption.
Qed.


Lemma is_digit_not c d : is_digit c = true -> is_digit d = false -> Ascii.eqb c d = false.
Proof.
  intros Hc Hd. destruct (Ascii.eqb_spec c d) as [->|]; [congruence|reflexivity].
Qed.

Lemma firstn_skipn_val s k :
  digits_val s
  = digits_val (firstn k s) * 10 ^ Z.of_nat (length (skipn k s))
    + digits_val (skipn k s).
Proof. rewrite <- digits_val_app, firstn_skipn. reflexivity. Qed.

Lemma all_zero_digits s :
  forallb (Ascii.eqb "0") s = true -> digits_val s = 0.
Proof.
  induction s as [|c s IH]; intros H; [reflexivity|].
  cbn [forallb] in H. apply andb_prop in H as [Hc Hs].
  apply Ascii.eqb_eq in Hc. subst c.
  rewrite digits_val_cons, IH by assumption. reflexivity.
Qed.






Lemma digits_of_0 : digits_of 0 = ["0"%char].
Proof. reflexivity. Qed.

End StrFacts.

Module LedgerFacts.
Import Str Ledger StrFacts.

(** What [parse_unsigned] answers on [whole.frac]. *)
Lemma parse_unsigned_point whole frac d :
  forallb is_digit whole = true -> forallb is_digit frac = true ->
  whole ++ frac <> [] ->
  parse_unsigned (whole ++ "."%char :: frac) d =
    if forallb (Ascii.eqb "0") (skipn (Z.to_nat d) frac)
    then Ok (digits_val (whole ++ firstn (Z.to_nat d) frac
               ++ zeros (Z.to_nat d - length (firstn (Z.to_nat d) frac))))
    else Err TooManyDecimals.
Proof.
  intros Hw Hf Hne. unfold parse_unsigned.
  rewrite take_while_app, drop_while_app by (assumption || reflexivity).
  change (Ascii.eqb "." ".") with true. rewrite Hf. cbn [andb].
  destruct (whole ++ frac) eqn:E; [congruence|]. reflexivity.
Qed.

Lemma parse_unsigned_integer whole d :
  forallb is_digit whole = true -> whole <> [] ->
  parse_unsigned whole d = Ok (digits_val whole * 10 ^ Z.of_nat (Z.to_nat d)).
Proof.
  intros Hw Hne. unfold parse_unsigned.
  rewrite take_while_all, drop_while_all by assumption.
  destruct (whole ++ []) eqn:E; [rewrite app_nil_r in E; congruence|].
  rewrite skipn_nil, firstn_nil. cbn [forallb length app].
  rewrite Nat.sub_0_r, digits_val_app, digits_val_zeros, length_zeros.
  f_equal. lia.
Qed.

(** The parsed integer denotes the literal's value: [K / 10^d] is
    [whole.frac]. *)
Lemma parse_unsigned_value whole frac d K :
  forallb is_digit whole = true -> forallb is_digit frac = true ->
  whole ++ frac <> [] ->
  parse_unsigned (whole ++ "."%char :: frac) d = Ok K ->
  K * 10 ^ Z.of_nat (length frac)
  = digits_val (whole ++ frac) * 10 ^ Z.of_nat (Z.to_nat d).
Proof.
  intros Hw Hf Hne. rewrite parse_unsigned_point by assumption.
  destruct (forallb (Ascii.eqb "0") (skipn (Z.to_nat d) frac)) eqn:Hz;
    [|discriminate].
  intros [= <-].
  set (n := Z.to_nat d) in *.
  rewrite (digits_val_app whole frac), (firstn_skipn_val frac n).
  rewrite (all_zero_digits _ Hz).
  rewrite !digits_val_app, digits_val_zeros, !length_app, length_zeros.
  assert (L : (length (firstn n frac) + length (skipn n frac) = length frac)%nat).
  { rewrite <- length_app, firstn_skipn. reflexivity. }
  pose proof (firstn_le_length n frac) as Lf.
  destruct (Nat.le_gt_cases (length frac) n) as [Hle|Hgt].
  - rewrite (firstn_all2 frac Hle) in *. rewrite (skipn_all2 frac Hle) in *.
    cbn [length] in *. change (10 ^ Z.of_nat 0) with 1.
    rewrite !Nat2Z.inj_add, !Nat2Z.inj_sub by lia.
    replace (Z.of_nat (length frac) + (Z.of_nat n - Z.of_nat (length frac)))
      with (Z.of_nat n) by lia.
    replace (10 ^ Z.of_nat n)
      with (10 ^ (Z.of_nat n - Z.of_nat (length frac)) * 10 ^ Z.of_nat (length frac)).
    2:{ rewrite <- Z.pow_add_r by lia. f_equal. lia. }
    ring.
  - rewrite firstn_length_le in * by lia.
    replace (n - n)%nat with 0%nat by lia.
    rewrite Nat.add_0_r.
    replace (Z.of_nat (length frac))
      with (Z.of_nat n + Z.of_nat (length (skipn n frac))) by lia.
    rewrite !Z.pow_add_r by lia. change (10 ^ Z.of_nat 0) with 1. ring.
Qed.


Lemma parseUnits_unsigned c r d :
  is_digit c = true -> parseUnits (c :: r) d = parse_unsigned (c :: r) d.
Proof.
  intros H. unfold parseUnits.
  rewrite (is_digit_not c "-" H) by reflexivity. reflexivity.
Qed.

End LedgerFacts.

Module FixedFacts.
Import Num Str JS Ledger StrFacts LedgerFacts.

(** The padded digit string of [fixed_layout]. *)
Lemma padded_digits n f :
  0 <= n -> 0 <= f ->
  let m' := zeros (Z.to_nat f + 1 - length (digits_of n)) ++ digits_of n in
  forallb is_digit m' = true /\ digits_val m' = n
  /\ (Z.to_nat f + 1 <= length m')%nat.
Proof.
  intros Hn Hf m'. subst m'.
  destruct (digits_of_spec n Hn) as (Hd & Hv & _ & Hl).
  rewrite forallb_app, forallb_digit_zeros, Hd.
  rewrite digits_val_app, digits_val_zeros, Hv, length_app, length_zeros.
  repeat split; lia.
Qed.

(** The fixed-point text splits into a whole part and [f] decimals. *)
Lemma fixed_layout_split n f :
  0 <= n -> 0 < f ->
  exists whole frac,
    fixed_layout n f = whole ++ "."%char :: frac
    /\ forallb is_digit whole = true /\ forallb is_digit frac = true
    /\ whole <> [] /\ length frac = Z.to_nat f
    /\ digits_val (whole ++ frac) = n
    /\ whole ++ frac
       = zeros (Z.to_nat f + 1 - length (digits_of n)) ++ digits_of n.
Proof.
  intros Hn Hf. unfold fixed_layout.
  replace (f =? 0) with false by (symmetry; apply Z.eqb_neq; lia).
  destruct (padded_digits n f Hn ltac:(lia)) as (Hd & Hv & Hl).
  set (m' := zeros (Z.to_nat f + 1 - length (digits_of n)) ++ digits_of n) in *.
  set (a := (length m' - Z.to_nat f)%nat).
  exists (firstn a m'), (skipn a m').
  rewrite <- (firstn_skipn a m') in Hd. rewrite forallb_app in Hd.
  apply andb_prop in Hd as [Hd1 Hd2].
  split; [reflexivity|]. split; [exact Hd1|]. split; [exact Hd2|].
  split; [|split; [|split]].
  - intros E. apply (f_equal (@length _)) in E.
    rewrite firstn_length_le in E by (subst a; lia). cbn in E. subst a. lia.
  - rewrite length_skipn. subst a. lia.
  - rewrite firstn_skipn. exact Hv.
  - apply firstn_skipn.
Qed.

Lemma fixed_layout_parses n f :
  0 <= n -> 0 <= f ->
  parseUnits (fixed_layout n f) f = Ok n
  /\ fixed_format f (fixed_layout n f) = true.
Proof.
  intros Hn Hf. destruct (Z.eq_dec f 0) as [->|Hf0].
  - unfold fixed_layout. cbn [Z.eqb].
    destruct (digits_of_spec n Hn) as (Hd & Hv & _ & Hl).
    destruct (digits_of n) as [|c r] eqn:E; [cbn in Hl; lia|].
    pose proof Hd as Hd'. cbn [forallb] in Hd'. apply andb_prop in Hd' as [Hc _].
    split.
    + rewrite parseUnits_unsigned by exact Hc.
      rewrite parse_unsigned_integer by (assumption || discriminate).
      rewrite Hv. cbn. f_equal. lia.
    + unfold fixed_format. rewrite take_while_all, drop_while_all by assumption.
      reflexivity.
  - destruct (fixed_layout_split n f Hn ltac:(lia))
      as (whole & frac & E & Hw & Hfr & Hne & Hlen & Hv & _).
    rewrite E. split.
    + destruct whole as [|c r] eqn:Ew; [congruence|]. rewrite <- Ew in *.
      assert (Hc : is_digit c = true).
      { rewrite Ew in Hw. cbn [forallb] in Hw. apply andb_prop in Hw. tauto. }
      rewrite Ew at 1. cbn [app]. rewrite parseUnits_unsigned by exact Hc.
      change (c :: r ++ "."%char :: frac) with ((c :: r) ++ "."%char :: frac).
      rewrite <- Ew.
      rewrite parse_unsigned_point; try assumption.
      2:{ intros E'. apply app_eq_nil in E'. tauto. }
      rewrite <- Hlen, skipn_all, firstn_all, Nat.sub_diag. cbn [forallb zeros repeat].
      rewrite app_nil_r, Hv. reflexivity.
    + unfold fixed_format.
      rewrite take_while_app, drop_while_app by (assumption || reflexivity).
      destruct whole; [congruence|].
      rewrite Hfr, Hlen, Z2Nat.id by lia.
      change (Ascii.eqb "." ".") with true.
      rewrite Z.eqb_refl. cbn [andb]. apply Z.ltb_lt. lia.
Qed.




Lemma fixed_int_nonneg u d : 0 <= u -> 0 <= d -> 0 <= fixed_int u d.
Proof.
  intros Hu Hd. unfold fixed_int.
  assert (0 < unit_scale) by (apply Z.pow_pos_nonneg; lia).
  assert (0 < 10 ^ d) by (apply Z.pow_pos_nonneg; lia).
  apply Z.div_pos; nia.
Qed.

(** [n] is nearest to [x * 10^d], the upper one on a tie. *)
Lemma fixed_int_nearest u d :
  let n := fixed_int u d in
  2 * u * 10 ^ d - unit_scale < 2 * n * unit_scale
  /\ 2 * n * unit_scale <= 2 * u * 10 ^ d + unit_scale.
Proof.
  intros n. subst n. unfold fixed_int.
  assert (U : 0 < unit_scale) by (apply Z.pow_pos_nonneg; lia).
  set (p := 2 * u * 10 ^ d + unit_scale).
  pose proof (Z.div_mod p (2 * unit_scale) ltac:(lia)) as E.
  pose proof (Z.mod_pos_bound p (2 * unit_scale) ltac:(lia)) as B.
  lia.
Qed.

(** Below [10^21] and with a digit count in range, [toFixed] lays out
    the rounded integer. *)
Lemma toFixed_in_range u d :
  0 <= u < 10 ^ 21 * unit_scale -> 0 <= d <= 100 ->
  toFixed (Fin u) d = Ok (fixed_layout (fixed_int u d) d).
Proof.
  intros Hu Hd. unfold toFixed.
  replace (d <? 0) with false by (symmetry; apply Z.ltb_ge; lia).
  replace (100 <? d) with false by (symmetry; apply Z.ltb_ge; lia).
  cbn [orb]. rewrite Z.abs_eq by lia.
  replace (10 ^ 21 * unit_scale <=? u) with false
    by (symmetry; apply Z.leb_gt; lia).
  replace (u <? 0) with false by (symmetry; apply Z.ltb_ge; lia).
  reflexivity.
Qed.

End FixedFacts.

Module ToStringFacts.
Import Num Str JS Ledger NumFacts StrFacts LedgerFacts.

Lemma max_units_pos : 0 <= max_units.
Proof. unfold max_units. pose proof (pow2_pos 53 ltac:(lia)).
  pose proof (pow2_pos 2045 ltac:(lia)). nia. Qed.

Lemma of_rat_0 q : 0 < q -> of_rat 0 q = Fin 0.
Proof.
  intros Hq. rewrite of_rat_nonneg; try lia.
  - f_equal. apply (round_grid_exact 0 q Hq); [lia|reflexivity].
  - change 0 with (0 * q) at 1.
    rewrite (round_grid_exact 0 q Hq); [apply max_units_pos|lia|reflexivity].
Qed.

Lemma of_decimal_0 e : of_decimal 0 e = Fin 0.
Proof.
  unfold of_decimal. destruct (Z.leb_spec 0 e).
  - rewrite !Z.mul_0_l. apply of_rat_0. lia.
  - rewrite Z.mul_0_l. apply of_rat_0. apply pow10_pos. lia.
Qed.

Lemma reads_back_eq a s e : reads_back a s e = true -> of_decimal s e = Fin a.
Proof.
  unfold reads_back. destruct (of_decimal s e); try discriminate.
  intros H. apply Z.eqb_eq in H. congruence.
Qed.

Lemma reads_back_nonzero a s e : 0 < a -> reads_back a s e = true -> s <> 0.
Proof.
  intros Ha H ->. apply reads_back_eq in H. rewrite of_decimal_0 in H.
  injection H. lia.
Qed.

Lemma candidate_spec a n k s e :
  0 < a -> candidate a n k = Some (s, e) ->
  0 < s /\ reads_back a s e = true.
Proof.
  intros Ha. unfold candidate.
  set (lo := if 0 <=? n - k then a / (unit_scale * 10 ^ (n - k))
             else a * 10 ^ (- (n - k)) / unit_scale).
  assert (Hlo : 0 <= lo).
  { subst lo. pose proof unit_scale_pos.
    destruct (Z.leb_spec 0 (n - k)).
    - pose proof (pow10_pos (n - k) ltac:(lia)). apply Z.div_pos; nia.
    - pose proof (pow10_pos (- (n - k)) ltac:(lia)). apply Z.div_pos; nia. }
  destruct (reads_back a lo (n - k)) eqn:R1;
    destruct (reads_back a (lo + 1) (n - k)) eqn:R2;
    repeat match goal with
           | |- context [if ?b then _ else _] => destruct b
           end;
    intros [= <- <-]; split; try assumption; try lia.
  all: pose proof (reads_back_nonzero a lo (n - k) Ha R1); lia.
Qed.

Lemma search_spec fuel : forall a n k s e,
  0 < a -> search fuel a n k = Some (s, e) ->
  0 < s /\ reads_back a s e = true.
Proof.
  induction fuel as [|f IH]; intros a n k s e Ha; cbn [search]; [discriminate|].
  destruct (candidate a n k) as [[s' e']|] eqn:C.
  - intros [= <- <-]. apply (candidate_spec a n k); assumption.
  - apply IH. exact Ha.
Qed.

(** Dropping a trailing zero keeps the value. *)
Lemma of_decimal_strip s e :
  s mod 10 = 0 -> of_decimal (s / 10) (e + 1) = of_decimal s e.
Proof.
  intros Hm. apply Z.mod_divide in Hm; [|lia]. destruct Hm as [t ->].
  rewrite Z.div_mul by lia.
  set (k := Z.max 0 (- e)).
  rewrite (of_decimal_rat t (e + 1) k), (of_decimal_rat (t * 10) e k) by lia.
  f_equal. replace (e + 1 + k) with (Z.succ (e + k)) by lia.
  rewrite Z.pow_succ_r by lia. ring.
Qed.

Lemma strip10_spec fuel : forall s e,
  0 < s ->
  0 < fst (strip10 fuel s e)
  /\ of_decimal (fst (strip10 fuel s e)) (snd (strip10 fuel s e))
     = of_decimal s e.
Proof.
  induction fuel as [|f IH]; intros s e Hs; cbn [strip10]; [split; [exact Hs|reflexivity]|].
  destruct (Z.eqb_spec (s mod 10) 0) as [Hm|Hm]; cbn [andb];
    [|split; [exact Hs|reflexivity]].
  destruct (Z.eqb_spec s 0) as [Hz|Hz]; cbn [negb]; [lia|].
  assert (0 < s / 10).
  { apply Z.div_str_pos. apply Z.mod_divide in Hm; [|lia].
    destruct Hm as [t ->]. lia. }
  destruct (IH (s / 10) (e + 1) H) as [P E].
  split; [exact P|]. rewrite E. apply of_decimal_strip. exact Hm.
Qed.

(** The exact expansion reads back. *)
Lemma exact_expansion a :
  0 <= a -> on_grid a = true -> of_decimal (a * 5 ^ 1074) (-1074) = Fin a.
Proof.
  intros Ha G. apply on_grid_iff in G as [A M].
  rewrite (of_decimal_rat _ _ 1074) by lia.
  replace (-1074 + 1074) with 0 by lia. rewrite Z.pow_0_r, Z.mul_1_r.
  assert (P : 0 < 10 ^ 1074) by (apply pow10_pos; lia).
  assert (E : a * 5 ^ 1074 * unit_scale * 1 = a * 1 * 10 ^ 1074).
  { unfold unit_scale.
    replace (10 ^ 1074) with (5 ^ 1074 * 2 ^ 1074)
      by (rewrite <- Z.pow_mul_l; reflexivity).
    ring. }
  rewrite (of_rat_ext _ _ (a * 1) 1 P ltac:(lia) E).
  pose proof (round_grid_exact a 1 ltac:(lia) Ha A) as R.
  rewrite of_rat_nonneg; rewrite ?R; try lia. reflexivity.
Qed.

Lemma shortest_spec a :
  0 < a -> on_grid a = true ->
  0 < fst (shortest a)
  /\ of_decimal (fst (shortest a)) (snd (shortest a)) = Fin a.
Proof.
  intros Ha G. unfold shortest.
  destruct (search 17 a (dec_exponent a) 1) as [[s e]|] eqn:S.
  - destruct (search_spec _ _ _ _ _ _ Ha S) as [Hs R].
    destruct (strip10_spec 20 s e Hs) as [P E].
    split; [exact P|]. rewrite E. apply reads_back_eq. exact R.
  - assert (Hs : 0 < a * 5 ^ 1074).
    { pose proof (Z.pow_pos_nonneg 5 1074 ltac:(lia) ltac:(lia)). nia. }
    destruct (strip10_spec 1100 _ (-1074) Hs) as [P E].
    split; [exact P|]. rewrite E. apply exact_expansion; [lia|exact G].
Qed.


Lemma parse_unsigned_rejects whole c r d :
  forallb is_digit whole = true ->
  (Ascii.eqb c "." && forallb is_digit r)%bool = false ->
  is_digit c = false ->
  exists err, parse_unsigned (whole ++ c :: r) d = Err err.
Proof.
  intros Hw Hc Hd. unfold parse_unsigned.
  rewrite drop_while_app by assumption. rewrite Hc.
  exists InvalidValue. reflexivity.
Qed.

(** The ledger parser refuses the exponent notation. *)
Lemma exponent_form_rejected c0 r0 x d :
  is_digit c0 = true ->
  let ex := "e"%char :: x in
  exists err,
    parseUnits match c0 :: r0 with
               | [] => []
               | [c] => c :: ex
               | c :: rest => c :: "."%char :: rest ++ ex
               end d = Err err.
Proof.
  intros Hc0 ex. destruct r0 as [|c1 r1].
  - rewrite parseUnits_unsigned by exact Hc0.
    apply (parse_unsigned_rejects [c0] "e" x d); try reflexivity.
    cbn. rewrite Hc0. reflexivity.
  - rewrite parseUnits_unsigned by exact Hc0.
    apply (parse_unsigned_rejects [c0] "." ((c1 :: r1) ++ ex) d).
    + cbn. rewrite Hc0. reflexivity.
    + change (Ascii.eqb "." ".") with true. cbn [andb].
      rewrite forallb_app. subst ex. cbn [forallb].
      change (is_digit "e") with false. cbn [andb].
      apply andb_false_r.
    + reflexivity.
Qed.

(** What the ledger parser makes of the text of a positive number: the
    exponent notation is refused, and otherwise the parsed integer is
    the number's decimal [s * 10^e], scaled by [10^d]. *)
Lemma layout_parse s n d K :
  0 < s -> 0 <= d ->
  parseUnits (layout (digits_of s) n) d = Ok K ->
  let e := n - Z.of_nat (length (digits_of s)) in
  n <= 21
  /\ K * 10 ^ Z.max 0 (- e) = s * 10 ^ Z.max 0 e * 10 ^ d.
Proof.
  intros Hs Hd. destruct (digits_of_spec s ltac:(lia)) as (Dg & Dv & _ & Dl).
  cbv zeta. remember (digits_of s) as ds eqn:Eds0. clear Eds0.
  set (k := Z.of_nat (length ds)).
  assert (Hk : 0 < k) by (subst k; lia).
  assert (exists c0 r0, ds = c0 :: r0 /\ is_digit c0 = true) as (c0 & r0 & Eds & Hc0).
  { destruct ds as [|c0 r0]; [cbn in Dl; lia|]. exists c0, r0.
    cbn [forallb] in Dg. apply andb_prop in Dg. tauto. }
  assert (Hexp : forall x,
    parseUnits match ds with
               | [] => []
               | [c] => c :: "e"%char :: x
               | c :: rest => c :: "."%char :: rest ++ "e"%char :: x
               end d <> Ok K).
  { intros x. rewrite Eds.
    destruct (exponent_form_rejected c0 r0 x d Hc0) as [err E].
    rewrite E. discriminate. }
  unfold layout. fold k.
  destruct (Z.leb_spec n 21) as [Hn|Hn].
  2:{ rewrite !andb_false_r.
      replace (n <=? 0) with false by (symmetry; apply Z.leb_gt; lia).
      rewrite andb_false_r. intros H. exfalso. revert H. apply Hexp. }
  rewrite !andb_true_r.
  destruct (Z.leb_spec k n) as [Hkn|Hkn].
  { (* digits followed by zeros *)
    intros H. split; [exact Hn|].
    rewrite Eds in H at 1. cbn [app] in H.
    rewrite parseUnits_unsigned in H by exact Hc0.
    change (c0 :: r0 ++ zeros (Z.to_nat (n - k)))
      with ((c0 :: r0) ++ zeros (Z.to_nat (n - k))) in H.
    rewrite <- Eds in H.
    rewrite parse_unsigned_integer in H.
    + injection H as <-.
      rewrite digits_val_app, Dv, length_zeros, digits_val_zeros.
      rewrite !Z2Nat.id by lia.
      replace (Z.max 0 (- (n - k))) with 0 by lia.
      replace (Z.max 0 (n - k)) with (n - k) by lia.
      rewrite Z.pow_0_r. ring.
    + rewrite forallb_app, Dg, forallb_digit_zeros. reflexivity.
    + rewrite Eds. discriminate. }
  destruct (Z.ltb_spec 0 n) as [Hn0|Hn0].
  { (* a point inside the digits *)
    intros H. split; [exact Hn|].
    pose proof (firstn_skipn (Z.to_nat n) ds) as Ew.
    assert (Lw : length (firstn (Z.to_nat n) ds) = Z.to_nat n)
      by (apply firstn_length_le; subst k; lia).
    assert (Lf : Z.of_nat (length (skipn (Z.to_nat n) ds)) = k - n).
    { subst k. rewrite length_skipn. lia. }
    remember (firstn (Z.to_nat n) ds) as w eqn:Hw0. clear Hw0.
    remember (skipn (Z.to_nat n) ds) as f eqn:Hf0. clear Hf0.
    assert (Dw : forallb is_digit w = true /\ forallb is_digit f = true).
    { rewrite <- Ew, forallb_app in Dg. apply andb_prop in Dg. exact Dg. }
    destruct w as [|c w'] eqn:Eqw; [cbn in Lw; lia|].
    assert (c = c0) by (rewrite Eds in Ew; cbn in Ew; congruence). subst c.
    cbn [app] in H. rewrite parseUnits_unsigned in H by exact Hc0.
    change (c0 :: w' ++ "."%char :: f) with ((c0 :: w') ++ "."%char :: f) in H.
    apply parse_unsigned_value in H; try tauto.
    2:{ discriminate. }
    rewrite Ew, Dv, Lf, Z2Nat.id in H by lia.
    replace (Z.max 0 (- (n - k))) with (k - n) by lia.
    replace (Z.max 0 (n - k)) with 0 by lia.
    rewrite Z.pow_0_r. lia. }
  destruct (Z.ltb_spec (-6) n) as [Hn6|Hn6].
  { replace (n <=? 0) with true by (symmetry; apply Z.leb_le; lia).
    (* zero, point, zeros, digits *)
    cbn [andb]. intros H. split; [lia|].
    rewrite parseUnits_unsigned in H by reflexivity.
    change ("0"%char :: "."%char :: zeros (Z.to_nat (- n)) ++ ds)
      with (["0"%char] ++ "."%char :: (zeros (Z.to_nat (- n)) ++ ds)) in H.
    apply parse_unsigned_value in H.
    - rewrite length_app, length_zeros, Nat2Z.inj_add, !Z2Nat.id in H by lia.
      fold k in H.
      rewrite digits_val_app, digits_val_app, digits_val_zeros, Dv in H.
      change (digits_val ["0"%char]) with 0 in H.
      replace (Z.max 0 (- (n - k))) with (- n + k) by lia.
      replace (Z.max 0 (n - k)) with 0 by lia.
      rewrite Z.pow_0_r. lia.
    - reflexivity.
    - rewrite forallb_app, forallb_digit_zeros, Dg. reflexivity.
    - discriminate. }
  (* exponent notation, small numbers *)
  cbn [andb]. intros H. exfalso. revert H. apply Hexp.
Qed.

Lemma aligned_1e21 : aligned (10 ^ 21 * unit_scale).
Proof. vm_compute. reflexivity. Qed.

(** The allowance threshold reads back as the configured maximum: when
    the text of [a > 0] units parses to [K] at [d] decimals, [K / 10^d]
    rounds to [a]; and [a] is at most [10^21]. *)
Lemma threshold_reads_back a d K :
  0 < a -> on_grid a = true -> 0 <= d ->
  parseUnits (toString (Fin a)) d = Ok K ->
  0 < K /\ round_units (K * unit_scale) (10 ^ d) = a
  /\ a <= 10 ^ 21 * unit_scale.
Proof.
  intros Ha G Hd. unfold toString.
  replace (a =? 0) with false by (symmetry; apply Z.eqb_neq; lia).
  replace (a <? 0) with false by (symmetry; apply Z.ltb_ge; lia).
  unfold toString_pos.
  destruct (shortest_spec a Ha G) as [Hs R].
  destruct (shortest a) as [s e]. cbn [fst snd] in Hs, R.
  intros H. apply layout_parse in H; try assumption.
  cbv zeta in H. destruct H as [Hn E].
  destruct (digits_of_spec s ltac:(lia)) as (Dg & Dv & _ & Dl).
  pose proof (digits_val_bounds _ Dg) as B. rewrite Dv in B.
  set (len := Z.of_nat (length (digits_of s))) in *.
  replace (len + e - len) with e in E by lia.
  set (k := Z.max 0 (- e)) in *.
  assert (Hek : e + k = Z.max 0 e) by lia.
  pose proof (pow10_pos k ltac:(lia)) as Pk.
  pose proof (pow10_pos d Hd) as Pd.
  pose proof (pow10_pos (Z.max 0 e) ltac:(lia)) as Pe.
  pose proof unit_scale_pos as PU.
  rewrite (of_decimal_rat s e k) in R by lia. rewrite Hek in R.
  assert (KP : 0 < K) by nia.
  apply of_rat_Fin_inv in R; [|nia]. destruct R as [R _].
  split; [exact KP|]. split.
  - rewrite <- R. apply round_ext; try lia.
    transitivity (K * 10 ^ k * unit_scale); [ring|]. rewrite E. ring.
  - rewrite <- R. apply round_le_grid; try lia.
    + apply aligned_1e21.
    + assert (s * 10 ^ Z.max 0 e <= 10 ^ 21 * 10 ^ k) as Hle.
      2:{ apply (Z.mul_le_mono_nonneg_r _ _ unit_scale) in Hle; lia. }
      rewrite <- Z.pow_add_r by lia.
      destruct (Z.le_gt_cases 0 e) as [He|He].
      * replace (Z.max 0 e) with e by lia.
        apply Z.le_trans with (10 ^ len * 10 ^ e); [nia|].
        rewrite <- Z.pow_add_r by lia. apply Z.pow_le_mono_r; lia.
      * replace (Z.max 0 e) with 0 by lia. rewrite Z.pow_0_r, Z.mul_1_r.
        apply Z.le_trans with (10 ^ len); [lia|].
        apply Z.pow_le_mono_r; lia.
Qed.

End ToStringFacts.

Module ValidFacts.
Import Num Str JS Ledger Bot Obs NumFacts StrFacts LedgerFacts ToStringFacts.

Lemma of_rat_is_double p q : 0 < q -> is_double (of_rat p q) = true.
Proof.
  intros Hq. unfold of_rat.
  destruct (Z.ltb_spec max_units (round_units (Z.abs p) q)) as [H|H];
    [reflexivity|].
  pose proof (round_nonneg (Z.abs p) q ltac:(lia) Hq) as R0.
  pose proof (round_aligned (Z.abs p) q ltac:(lia) Hq) as A.
  cbn [is_double]. apply on_grid_iff.
  destruct (p <? 0); rewrite ?Z.abs_opp, Z.abs_eq by lia; split; assumption.
Qed.

Lemma of_decimal_is_double n e : is_double (of_decimal n e) = true.
Proof.
  unfold of_decimal. destruct (Z.leb_spec 0 e); apply of_rat_is_double;
    [lia|apply Z.pow_pos_nonneg; lia].
Qed.

Lemma parseFloat_is_double s : is_double (parseFloat s) = true.
Proof.
  unfold parseFloat.
  destruct (split_sign (drop_while is_space s)) as [neg t].
  destruct (starts_with (lit "Infinity") t); [reflexivity|].
  destruct (drop_while is_digit t) as [|c r].
  - destruct (take_while is_digit t ++ []); [reflexivity|].
    apply of_decimal_is_double.
  - destruct (Ascii.eqb c ".");
      (destruct (take_while is_digit t ++ _); [reflexivity|];
       apply of_decimal_is_double).
Qed.

(** The text of an infinity is no decimal literal. *)
Lemma infinity_rejected neg d K : parseUnits (toString (Inf neg)) d <> Ok K.
Proof. destruct neg; vm_compute; discriminate. Qed.

Lemma nan_rejected d K : parseUnits (toString NaN) d <> Ok K.
Proof. vm_compute; discriminate. Qed.

Lemma e21_rejected d K : parseUnits (toString (Fin (10 ^ 21 * unit_scale))) d <> Ok K.
Proof. vm_compute; discriminate. Qed.

(** Amounts that pass the validation and whose maximum the ledger parser
    accepts are finite, positive, ordered, and below [10^21]. *)
Lemma validated_amounts c d K :
  malformed c = false -> out_of_range c = false ->
  is_double (minVal c) = true -> is_double (maxVal c) = true ->
  0 <= d -> parseUnits (toString (maxVal c)) d = Ok K ->
  exists a b, minVal c = Fin a /\ maxVal c = Fin b
    /\ 0 < a <= b /\ b < 10 ^ 21 * unit_scale
    /\ on_grid a = true /\ on_grid b = true.
Proof.
  unfold malformed, out_of_range. intros Hm Hr Dmin Dmax Hd Hp.
  repeat (apply orb_false_elim in Hm; destruct Hm as [Hm ?]).
  repeat (apply orb_false_elim in Hr; destruct Hr as [Hr ?]).
  destruct (maxVal c) as [|s|b] eqn:Emax.
  - exfalso. exact (nan_rejected d K Hp).
  - exfalso. exact (infinity_rejected s d K Hp).
  - destruct (minVal c) as [|s|a] eqn:Emin.
    + discriminate.
    + destruct s; discriminate.
    + cbn [is_double] in Dmin, Dmax. unfold le, lt, zero in *.
      match goal with H : (a <=? 0) = false |- _ => apply Z.leb_gt in H end.
      match goal with H : (b <=? 0) = false |- _ => apply Z.leb_gt in H end.
      match goal with H : (b <? a) = false |- _ => apply Z.ltb_ge in H end.
      rewrite Z.abs_eq in Dmin, Dmax by lia.
      destruct (threshold_reads_back b d K ltac:(lia) Dmax Hd Hp) as (_ & _ & Hle).
      exists a, b. repeat split; try assumption; try lia.
      destruct (Z.eq_dec b (10 ^ 21 * unit_scale)) as [E|NE]; [|lia].
      exfalso. rewrite E in Hp. exact (e21_rejected d K Hp).
Qed.

End ValidFacts.

Module BotFacts.
Import Num Str JS Ledger Bot Obs NumFacts StrFacts LedgerFacts FixedFacts ToStringFacts.
Local Open Scope bot_scope.

Ltac mstep :=
  cbv beta iota zeta
      delta [bind try_catch ret emit log throw exit sleep lift call when
             prepend out_of_fuel];
  cbn [app fst snd].

Lemma bind_returned {A B} (m : M A) (f : A -> M B) k t k1 a :
  m k = (t, k1, Returned a) -> bind m f k = prepend t (f a k1).
Proof. intros H. unfold bind. rewrite H. reflexivity. Qed.

Lemma bind_thrown {A B} (m : M A) (f : A -> M B) k t k1 e :
  m k = (t, k1, Thrown e) -> bind m f k = (t, k1, Thrown e).
Proof. intros H. unfold bind. rewrite H. reflexivity. Qed.

Lemma bind_exited {A B} (m : M A) (f : A -> M B) k t k1 c :
  m k = (t, k1, Exited c) -> bind m f k = (t, k1, Exited c).
Proof. intros H. unfold bind. rewrite H. reflexivity. Qed.

(** One round of the connection loop. *)
Lemma connect_loop_step w f attempt k :
  attempt <= 8 ->
  connect_loop w (S f) attempt k =
    if network_up w attempt
    then ([EvGetNetwork attempt; EvLog (MsgConnected attempt)], k, Returned tt)
    else if attempt =? 8
    then ([EvGetNetwork attempt; EvLog (MsgAttemptFailed attempt);
           EvLog MsgExceeded; EvExit 1], k, Exited 1)
    else prepend [EvGetNetwork attempt; EvLog (MsgAttemptFailed attempt);
                  EvLog (MsgRetrying (2000 * 2 ^ (attempt - 1) / 1000));
                  EvSleep (of_Z (2000 * 2 ^ (attempt - 1)))]
                 (connect_loop w f (attempt + 1) k).
Proof.
  intros H. cbn [connect_loop]. unfold MAX_ATTEMPTS, BASE_DELAY_MS.
  replace (attempt <=? 8) with true by (symmetry; apply Z.leb_le; lia).
  destruct (network_up w attempt); [reflexivity|].
  destruct (attempt =? 8); [reflexivity|].
  mstep. destruct (connect_loop w f (attempt + 1) k) as [[t k'] r].
  reflexivity.
Qed.

(** Reading and validating the inputs (lines 98-123). *)
Lemma read_inputs_run w k :
  address_reply w = true ->
  read_inputs w k =
    if malformed (parsed w)
    then (prompts ++ [EvLog MsgInvalidInput; EvExit 1], k, Exited 1)
    else if out_of_range (parsed w)
    then (prompts ++ [EvLog MsgInvalidRange; EvExit 1], k, Exited 1)
    else (prompts, k, Returned (parsed w)).
Proof.
  intros Ha. unfold read_inputs. rewrite Ha. mstep.
  unfold malformed, out_of_range, parsed. cbn [minVal maxVal loops delayMin delayMax existsb].
  rewrite orb_false_r, !orb_assoc.
  destruct (_ || _ || _ || _ || _)%bool; [reflexivity|].
  destruct (_ || _ || _ || _ || _ || _ || _)%bool; reflexivity.
Qed.

Lemma read_inputs_no_address w k :
  address_reply w = false ->
  read_inputs w k = ([EvGetAddress], k, Thrown CallRejected).
Proof. intros Ha. unfold read_inputs. rewrite Ha. reflexivity. Qed.

(** The allowance check (lines 125-145), by cases on the replies. *)
Lemma ensure_allowance_run w sh maxVal k :
  ensure_allowance w sh maxVal k =
    match decimals_reply w with
    | None => ([EvDecimals], k, Thrown CallRejected)
    | Some d =>
        match parseUnits (toString maxVal) d with
        | Err e => ([EvDecimals; EvLog (MsgDecimals d)], k, Thrown e)
        | Ok need =>
            match allowance_reply w with
            | None =>
                ([EvDecimals; EvLog (MsgDecimals d); EvAllowance], k,
                 Thrown CallRejected)
            | Some al =>
                prepend [EvDecimals; EvLog (MsgDecimals d); EvAllowance;
                         EvLog (MsgAllowance al)]
                  (if allowTooSmall sh al need then
                     match approve_reply w with
                     | SendFails =>
                         ([EvLog MsgApproving; EvApprove MaxUint256], k,
                          Thrown CallRejected)
                     | WaitFails =>
                         ([EvLog MsgApproving; EvApprove MaxUint256;
                           EvLog MsgApproveTx; EvApproveWait], k,
                          Thrown CallRejected)
                     | Confirmed =>
                         ([EvLog MsgApproving; EvApprove MaxUint256;
                           EvLog MsgApproveTx; EvApproveWait;
                           EvLog MsgApproveConfirmed], k, Returned d)
                     end
                   else ([EvLog MsgAllowanceOk], k, Returned d))
            end
        end
    end.
Proof.
  unfold ensure_allowance.
  destruct (decimals_reply w) as [d|]; [|reflexivity]. mstep.
  destruct (parseUnits (toString maxVal) d) as [need|e]; [|reflexivity].
  destruct (allowance_reply w) as [al|]; [|reflexivity]. mstep.
  destruct (allowTooSmall sh al need); [|reflexivity].
  destruct (approve_reply w); reflexivity.
Qed.

Lemma subscribed_app t1 t2 : subscribed (t1 ++ t2) = subscribed t1 ++ subscribed t2.
Proof. apply flat_map_app. Qed.



Section LoopFacts.

Variables (w : world) (cfg : inputs) (d v n a b : Z).
Variable P : number -> Prop.
Hypothesis Hrand : fair_random w.
Hypothesis Hmin : minVal cfg = Fin a.
Hypothesis Hmax : maxVal cfg = Fin b.
Hypothesis Hab : 0 <= a <= b.
Hypothesis Hb : b < 10 ^ 21 * unit_scale.
Hypothesis Ga : on_grid a = true.
Hypothesis Gb : on_grid b = true.
Hypothesis Hd : 0 <= d <= 100.
Hypothesis Hloops : loops cfg = of_Z n.
Hypothesis Hn : 1 <= n < 2 ^ 53.
Hypothesis HP : forall k, P (requested_sleep w cfg k).



End LoopFacts.

(** *** The whole run *)

(** Once connected, the run is the outer [try] around the body. *)
Lemma run_connected w fuel sh tc k1 :
  env_present w = true -> ethers_shape w = Some sh ->
  connect w 0%nat = (tc, k1, Returned tt) ->
  run w fuel =
    let '(tb, _, r) :=
      try_catch (body w sh fuel) (fun err => log (MsgFatal err) ;; exit 1) k1
    in (tc ++ tb, r).
Proof.
  intros He Hs Hc. unfold run, main. rewrite He, Hs. cbn [negb].
  rewrite (bind_returned _ _ _ _ _ _ Hc). unfold prepend.
  destruct (try_catch _ _ k1) as [[tb k2] r]. reflexivity.
Qed.

(** The connection always starts with a first attempt. *)
Lemma connect_starts w k :
  exists t, fst (fst (connect w k)) = EvGetNetwork 1 :: t.
Proof.
  unfold connect. rewrite connect_loop_step by lia.
  destruct (network_up w 1); [eexists; reflexivity|].
  cbn [Z.eqb Pos.eqb]. destruct (connect_loop w 8 (1 + 1) k) as [[t k'] r].
  eexists. reflexivity.
Qed.

Lemma bad_range_out_of_range c : bad_range c = true -> out_of_range c = true.
Proof.
  unfold bad_range, out_of_range.
  destruct (lt (maxVal c) (minVal c)), (lt (delayMax c) (delayMin c)),
    (le (loops c) zero); try discriminate; intros _;
    rewrite ?orb_true_r; reflexivity.
Qed.

(** A run whose inputs are refused stops right after the prompts. *)
Lemma run_refused w fuel sh tc k1 :
  env_present w = true -> ethers_shape w = Some sh ->
  connect w 0%nat = (tc, k1, Returned tt) ->
  address_reply w = true ->
  (malformed (parsed w) || out_of_range (parsed w))%bool = true ->
  run w fuel =
    (tc ++ prompts
        ++ [EvLog (if malformed (parsed w) then MsgInvalidInput
                   else MsgInvalidRange); EvExit 1], Exited 1).
Proof.
  intros He Hs Hc Ha Hbad. rewrite (run_connected w fuel sh tc k1 He Hs Hc).
  unfold try_catch, body.
  assert (E : read_inputs w k1 =
    (prompts ++ [EvLog (if malformed (parsed w) then MsgInvalidInput
                        else MsgInvalidRange); EvExit 1], k1, Exited 1)).
  { rewrite (read_inputs_run w k1 Ha).
    destruct (malformed (parsed w)); [reflexivity|].
    cbn [orb] in Hbad. rewrite Hbad. reflexivity. }
  rewrite (bind_exited _ _ _ _ _ _ E). reflexivity.
Qed.

(** A run whose inputs are accepted goes on to the allowance check. *)
Lemma run_accepted w fuel sh tc k1 :
  env_present w = true -> ethers_shape w = Some sh ->
  connect w 0%nat = (tc, k1, Returned tt) ->
  address_reply w = true ->
  malformed (parsed w) = false -> out_of_range (parsed w) = false ->
  run w fuel =
    let '(tb, _, r) :=
      try_catch
        (decimalsNum <- ensure_allowance w sh (maxVal (parsed w)) ;;
         valueWei <- lift (parseEther (SUBSCRIBE_VALUE w)) ;;
         log (MsgSubscribeValue valueWei) ;;
         subscribe_loop w (parsed w) decimalsNum valueWei fuel one ;;
         log MsgDone)
        (fun err => log (MsgFatal err) ;; exit 1) k1
    in (tc ++ prompts ++ tb, r).
Proof.
  intros He Hs Hc Ha Hm Hr. rewrite (run_connected w fuel sh tc k1 He Hs Hc).
  assert (E : read_inputs w k1 = (prompts, k1, Returned (parsed w))).
  { rewrite (read_inputs_run w k1 Ha), Hm, Hr. reflexivity. }
  unfold try_catch, body. rewrite (bind_returned _ _ _ _ _ _ E).
  unfold prepend.
  destruct (bind (ensure_allowance w sh (maxVal (parsed w))) _ k1)
    as [[tb k2] r].
  destruct r; reflexivity.
Qed.

End BotFacts.

Module RunFacts.
Import Num Str JS Ledger Bot Obs.
Import NumFacts StrFacts LedgerFacts FixedFacts ToStringFacts ValidFacts BotFacts.
Local Open Scope bot_scope.

(** The connection phase only ever emits connection events. *)
Lemma connect_loop_events w f : forall attempt k,
  forallb connect_event (fst (fst (connect_loop w f attempt k))) = true.
Proof.
  induction f as [|f IH]; intros attempt k; [reflexivity|].
  destruct (Z.leb_spec attempt 8) as [Hle|Hgt].
  - rewrite connect_loop_step by exact Hle.
    destruct (network_up w attempt); [reflexivity|].
    destruct (attempt =? 8); [reflexivity|].
    specialize (IH (attempt + 1) k).
    destruct (connect_loop w f (attempt + 1) k) as [[t k'] r].
    cbn [prepend fst app forallb connect_event andb]. exact IH.
  - cbn [connect_loop]. unfold MAX_ATTEMPTS.
    replace (attempt <=? 8) with false by (symmetry; apply Z.leb_gt; lia).
    reflexivity.
Qed.

Lemma connect_events w k tc k1 r :
  connect w k = (tc, k1, r) -> forallb connect_event tc = true.
Proof.
  intros H. pose proof (connect_loop_events w 9 1 k) as E.
  unfold connect in H. rewrite H in E. exact E.
Qed.

Lemma connect_events_quiet t :
  forallb connect_event t = true ->
  subscribed t = [] /\ errors_logged t = 0%nat
  /\ forallb (fun e => negb (is_ledger_call e)) t = true
  /\ filter is_approve t = [].
Proof.
  induction t as [|e t IH]; intros H; [repeat split|].
  cbn [forallb] in H. apply andb_prop in H as [He Ht].
  destruct (IH Ht) as (S & E & L & A).
  unfold errors_logged in *.
  destruct e as [m| | | | | | | | | | |]; try discriminate;
    try destruct m; try discriminate;
    cbn [subscribed flat_map app filter forallb is_ledger_call negb andb
         is_approve];
    repeat split; assumption.
Qed.

Lemma prompts_quiet :
  subscribed prompts = [] /\ errors_logged prompts = 0%nat
  /\ forallb (fun e => negb (is_ledger_call e)) prompts = true
  /\ filter is_approve prompts = [].
Proof. repeat split. Qed.




Lemma parseInt_is_double s : is_double (parseInt s) = true.
Proof.
  unfold parseInt.
  destruct (split_sign (drop_while is_space s)) as [neg t].
  set (p := match t with
            | z :: c :: r =>
                if (Ascii.eqb z "0" && (Ascii.eqb c "x" || Ascii.eqb c "X"))%bool
                then (16, r) else (10, t)
            | _ => (10, t)
            end).
  destruct p as [radix t'].
  destruct (take_while (radix_digit radix) t'); [reflexivity|].
  apply of_rat_is_double. lia.
Qed.




End RunFacts.

Module ConnectClaims.
Import Num Str JS Ledger Bot Obs BotFacts.
Local Open Scope bot_scope.

Local Arguments of_Z : simpl never.

(** The trace of a connection that fails on every attempt. *)
Lemma connect_all_fail w k :
  (forall a, 1 <= a <= 8 -> network_up w a = false) ->
  connect w k =
    (flat_map backoff_round (attempts 7)
       ++ [EvGetNetwork 8; EvLog (MsgAttemptFailed 8); EvLog MsgExceeded;
           EvExit 1], k, Exited 1).
Proof.
  intros H. unfold connect.
  do 8 (rewrite connect_loop_step by lia; rewrite H by lia; cbn [Z.eqb Z.add Pos.add Pos.succ Pos.eqb]).
  reflexivity.
Qed.

(** Runs the connection loop along the replies known in the context. *)
Ltac connect_run :=
  unfold connect;
  repeat (rewrite connect_loop_step by lia;
          match goal with
          | H : network_up _ ?a = _ |- context [network_up _ ?a] => rewrite H
          end;
          cbn [Z.eqb Z.add Pos.add Pos.succ Pos.eqb prepend]);
  reflexivity.

(** The attempts before the last one are failures found in the context. *)
Ltac earlier_failed :=
  let a := fresh "a" in
  let Ha := fresh "Ha" in
  intros a Ha; cbn in Ha;
  repeat (destruct Ha as [Ha|Ha]; [subst a; assumption|]);
  contradiction.

(** C2.  The endpoint connection makes at most 8 attempts: some attempt
    [n <= 8] is the last one, every attempt before it failed and was
    followed by a sleep of exactly [2000 * 2^(k-1)] ms before attempt
    [k + 1], and either attempt [n] connects, or [n = 8], every attempt
    failed, and the process exits with code 1 there: the whole run is
    that trace, and it contains no call of the Allowance Guard or of the
    submission loop. *)
Theorem connect_backoff (w : world) (k0 : nat) :
  exists n : nat,
    (1 <= n <= 8)%nat
    /\ (forall a, In a (attempts (n - 1)) -> network_up w a = false)
    /\ ((network_up w (Z.of_nat n) = true
         /\ connect w k0 =
              (flat_map backoff_round (attempts (n - 1))
                 ++ [EvGetNetwork (Z.of_nat n);
                     EvLog (MsgConnected (Z.of_nat n))], k0, Returned tt))
        \/ (n = 8%nat /\ network_up w 8 = false
            /\ forall fuel sh,
                 env_present w = true -> ethers_shape w = Some sh ->
                 run w fuel =
                   (flat_map backoff_round (attempts 7)
                      ++ [EvGetNetwork 8; EvLog (MsgAttemptFailed 8);
                          EvLog MsgExceeded; EvExit 1], Exited 1)
                 /\ forallb (fun e => negb (is_ledger_call e))
                            (fst (run w fuel)) = true)).
Proof.
  assert (ledger_free : forall fuel sh,
    (forall a, 1 <= a <= 8 -> network_up w a = false) ->
    env_present w = true -> ethers_shape w = Some sh ->
    run w fuel =
      (flat_map backoff_round (attempts 7)
         ++ [EvGetNetwork 8; EvLog (MsgAttemptFailed 8);
             EvLog MsgExceeded; EvExit 1], Exited 1)
    /\ forallb (fun e => negb (is_ledger_call e)) (fst (run w fuel)) = true).
  { intros fuel sh Hf He Hs.
    assert (E : run w fuel =
      (flat_map backoff_round (attempts 7)
         ++ [EvGetNetwork 8; EvLog (MsgAttemptFailed 8);
             EvLog MsgExceeded; EvExit 1], Exited 1)).
    { unfold run, main. rewrite He, Hs. cbn [negb].
      rewrite (bind_exited _ _ _ _ _ _ (connect_all_fail w 0%nat Hf)).
      reflexivity. }
    split; [exact E|]. rewrite E. reflexivity. }
  destruct (network_up w 1) eqn:H1;
    [exists 1%nat; split; [lia|]; split; [earlier_failed|]; left; split;
       [cbn; assumption|cbn [Z.of_nat Pos.of_succ_nat Pos.succ]; connect_run]|].
  destruct (network_up w 2) eqn:H2;
    [exists 2%nat; split; [lia|]; split; [earlier_failed|]; left; split;
       [cbn; assumption|cbn [Z.of_nat Pos.of_succ_nat Pos.succ]; connect_run]|].
  destruct (network_up w 3) eqn:H3;
    [exists 3%nat; split; [lia|]; split; [earlier_failed|]; left; split;
       [cbn; assumption|cbn [Z.of_nat Pos.of_succ_nat Pos.succ]; connect_run]|].
  destruct (network_up w 4) eqn:H4;
    [exists 4%nat; split; [lia|]; split; [earlier_failed|]; left; split;
       [cbn; assumption|cbn [Z.of_nat Pos.of_succ_nat Pos.succ]; connect_run]|].
  destruct (network_up w 5) eqn:H5;
    [exists 5%nat; split; [lia|]; split; [earlier_failed|]; left; split;
       [cbn; assumption|cbn [Z.of_nat Pos.of_succ_nat Pos.succ]; connect_run]|].
  destruct (network_up w 6) eqn:H6;
    [exists 6%nat; split; [lia|]; split; [earlier_failed|]; left; split;
       [cbn; assumption|cbn [Z.of_nat Pos.of_succ_nat Pos.succ]; connect_run]|].
  destruct (network_up w 7) eqn:H7;
    [exists 7%nat; split; [lia|]; split; [earlier_failed|]; left; split;
       [cbn; assumption|cbn [Z.of_nat Pos.of_succ_nat Pos.succ]; connect_run]|].
  destruct (network_up w 8) eqn:H8;
    [exists 8%nat; split; [lia|]; split; [earlier_failed|]; left; split;
       [cbn; assumption|cbn [Z.of_nat Pos.of_succ_nat Pos.succ]; connect_run]|].
  exists 8%nat. split; [lia|]. split; [earlier_failed|]. right.
  split; [reflexivity|]. split; [reflexivity|].
  intros fuel sh. apply ledger_free.
  intros a Ha.
  assert (a = 1 \/ a = 2 \/ a = 3 \/ a = 4 \/ a = 5 \/ a = 6 \/ a = 7 \/ a = 8)
    as Hcase by lia.
  repeat (destruct Hcase as [->|Hcase]; [assumption|]). subst a. assumption.
Qed.

End ConnectClaims.

Module AmountClaims.
Import Num Str JS Ledger Bot Obs Scenarios.
Import NumFacts StrFacts LedgerFacts FixedFacts ToStringFacts ValidFacts BotFacts.





(** C1 (as amended).  For every decimal precision [d] from 0 to 100 and
    every draw [x] with [0 <= x < 10^21], the display string is [x]
    rounded to the nearest multiple of [10^-d] (the upper one on a tie,
    not truncated), written with exactly [d] fractional digits, and the
    ledger parser accepts it at precision [d], giving that rounded
    value in smallest units. *)
Theorem amount_string_parses (u d : Z) :
  0 <= u < 10 ^ 21 * unit_scale -> 0 <= d <= 100 ->
  let n := fixed_int u d in
  exists s,
    toFixed (Fin u) d = Ok s
    /\ fixed_format d s = true
    /\ 2 * u * 10 ^ d - unit_scale < 2 * n * unit_scale
       <= 2 * u * 10 ^ d + unit_scale
    /\ parseUnits s d = Ok n.
Proof.
  intros Hu Hd n. exists (fixed_layout n d).
  destruct (fixed_layout_parses n d) as [Hp Hf];
    [apply fixed_int_nonneg; lia|lia|].
  split; [apply toFixed_in_range; assumption|].
  split; [exact Hf|]. split; [apply fixed_int_nearest|exact Hp].
Qed.

Lemma amount_string_parses_witness :
  exists s,
    toFixed (Fin (unit_scale / 4)) 2 = Ok s
    /\ fixed_format 2 s = true
    /\ 2 * (unit_scale / 4) * 10 ^ 2 - unit_scale
       < 2 * fixed_int (unit_scale / 4) 2 * unit_scale
       <= 2 * (unit_scale / 4) * 10 ^ 2 + unit_scale
    /\ parseUnits s 2 = Ok (fixed_int (unit_scale / 4) 2).
Proof.
  apply (amount_string_parses (unit_scale / 4) 2).
  - split; [apply Z.leb_le|apply Z.ltb_lt]; vm_compute; reflexivity.
  - lia.
Defined.

(** C1 fails as stated: with 101 decimals the draw 0.3 of the range
    0.1 .. 0.5 has no display string at all ([toFixed] throws a
    RangeError), and a run against such a token ends in the fatal handler
    before any submission. *)
Lemma no_amount_string_for_101_decimals :
  lt (of_decimal 1 (-1)) (of_decimal 3 (-1)) = true
  /\ lt (of_decimal 3 (-1)) (of_decimal 5 (-1)) = true
  /\ toFixed (of_decimal 3 (-1)) 101 = Err RangeError
  /\ ~ (exists s, toFixed (of_decimal 3 (-1)) 101 = Ok s)
  /\ In (EvLog (MsgFatal RangeError)) (fst (run decimals_101 10))
  /\ subscribed (fst (run decimals_101 10)) = [].
Proof.
  split; [vm_compute; reflexivity|]. split; [vm_compute; reflexivity|].
  assert (E : toFixed (of_decimal 3 (-1)) 101 = Err RangeError)
    by (vm_compute; reflexivity).
  split; [exact E|]. split.
  - intros [s Hs]. rewrite E in Hs. discriminate.
  - split; [|vm_compute; reflexivity].
    apply (nth_error_In _ 21). vm_compute. reflexivity.
Qed.



End AmountClaims.

Module ThresholdClaims.
Import Num Str JS Ledger Bot Obs Scenarios.
Import NumFacts StrFacts LedgerFacts FixedFacts ToStringFacts ValidFacts BotFacts.
Import AmountClaims.





(** The threshold is exceeded only by a draw equal to the maximum, which
    the code does produce when the two bounds coincide: with both at 0.1
    and eighteen decimals the amount submitted is 100000000000000006
    against a threshold of 100000000000000000. *)
Lemma draw_equal_to_max_exceeds :
  parseUnits (toString (maxVal (parsed equal_bounds))) 18
    = Ok 100000000000000000
  /\ exists i, In (EvSubscribe i 100000000000000006 0)
                  (fst (run equal_bounds 5)).
Proof.
  split; [vm_compute; reflexivity|].
  exists (of_Z 1). apply (nth_error_In _ 22). vm_compute. reflexivity.
Qed.

End ThresholdClaims.

Module RunClaims.
Import Num Str JS Ledger Bot Obs Scenarios.
Import NumFacts StrFacts LedgerFacts FixedFacts ToStringFacts ValidFacts BotFacts RunFacts.
Local Open Scope bot_scope.







(** C7.  When the approval is needed and fails (the transaction is
    rejected or its confirmation fails), nothing catches the error before
    the outer handler: the run is the events up to the approval, the
    fatal line, and [process.exit(1)], with no submission at all. *)
Theorem approval_failure_is_fatal (w : world) (fuel : nat) (sh : shape)
    (tc : list event) (k1 : nat) (d need al : Z) :
  env_present w = true -> ethers_shape w = Some sh ->
  connect w 0%nat = (tc, k1, Returned tt) ->
  address_reply w = true ->
  malformed (parsed w) = false -> out_of_range (parsed w) = false ->
  decimals_reply w = Some d ->
  parseUnits (toString (maxVal (parsed w))) d = Ok need ->
  allowance_reply w = Some al ->
  allowTooSmall sh al need = true ->
  approve_reply w <> Confirmed ->
  exists t,
    run w fuel = (t ++ [EvLog (MsgFatal CallRejected); EvExit 1], Exited 1)
    /\ In (EvApprove MaxUint256) t
    /\ subscribed t = [].
Proof.
  intros He Hs Hc Ha Hm Hr Hd Hp Hal Hsmall Hfail.
  destruct (connect_events_quiet tc (connect_events w _ _ _ _ Hc))
    as (Sc & _).
  rewrite (run_accepted w fuel sh tc k1 He Hs Hc Ha Hm Hr).
  unfold try_catch.
  pose proof (ensure_allowance_run w sh (maxVal (parsed w)) k1) as E.
  rewrite Hd, Hp, Hal, Hsmall in E.
  assert (Hfatal : forall ta,
    In (EvApprove MaxUint256) ta -> subscribed ta = [] ->
    ensure_allowance w sh (maxVal (parsed w)) k1
      = (ta, k1, Thrown CallRejected) ->
    exists t,
      (let '(tb, _, r) :=
         let '(t1, k2, r) :=
           bind (ensure_allowance w sh (maxVal (parsed w)))
             (fun decimalsNum =>
                valueWei <- lift (parseEther (SUBSCRIBE_VALUE w)) ;;
                log (MsgSubscribeValue valueWei) ;;
                subscribe_loop w (parsed w) decimalsNum valueWei fuel one ;;
                log MsgDone) k1 in
         match r with
         | Thrown e => prepend t1 ((log (MsgFatal e) ;; exit 1) k2)
         | _ => (t1, k2, r)
         end in (tc ++ prompts ++ tb, r))
      = (t ++ [EvLog (MsgFatal CallRejected); EvExit 1], Exited 1)
      /\ In (EvApprove MaxUint256) t /\ subscribed t = []).
  { intros ta Hin Hsub Eta. rewrite (bind_thrown _ _ _ _ _ _ Eta).
    exists (tc ++ prompts ++ ta). split; [|split].
    - unfold bind, log, emit, exit, prepend. cbn [app].
      rewrite <- !app_assoc. reflexivity.
    - apply in_or_app. right. apply in_or_app. right. exact Hin.
    - rewrite !subscribed_app, Sc, Hsub. reflexivity. }
  destruct (approve_reply w) eqn:Rep; [congruence| |];
    cbn [prepend app] in E;
    (eapply Hfatal; [| |exact E]; [cbn [In]; tauto|reflexivity]).
Qed.

Lemma approval_failure_is_fatal_witness :
  exists t,
    run approval_fails 10
      = (t ++ [EvLog (MsgFatal CallRejected); EvExit 1], Exited 1)
    /\ In (EvApprove MaxUint256) t
    /\ subscribed t = [].
Proof.
  apply (approval_failure_is_fatal approval_fails 10 V6
           (fst (fst (connect approval_fails 0%nat))) 0%nat 6 500000 0);
    try (vm_compute; reflexivity).
  discriminate.
Defined.

(** C3 (as amended).  When an input is malformed or a range relationship
    is invalid, the run - which has connected to the endpoint before it
    prompts - reports the validation error and exits with code 1 right
    after the prompts, before any call to the token or to the target
    contract. *)
Theorem refused_inputs_exit_before_ledger (w : world) (fuel : nat)
    (sh : shape) (tc : list event) (k1 : nat) :
  env_present w = true -> ethers_shape w = Some sh ->
  connect w 0%nat = (tc, k1, Returned tt) ->
  address_reply w = true ->
  (malformed (parsed w) || bad_range (parsed w))%bool = true ->
  exists m,
    (m = MsgInvalidInput \/ m = MsgInvalidRange)
    /\ run w fuel = (tc ++ prompts ++ [EvLog m; EvExit 1], Exited 1)
    /\ forallb (fun e => negb (is_ledger_call e)) (fst (run w fuel)) = true
    /\ existsb is_connect tc = true.
Proof.
  intros He Hs Hc Ha Hbad.
  assert (Hbad' : (malformed (parsed w) || out_of_range (parsed w))%bool = true).
  { destruct (malformed (parsed w)); [reflexivity|]. cbn [orb] in *.
    apply bad_range_out_of_range. exact Hbad. }
  pose proof (run_refused w fuel sh tc k1 He Hs Hc Ha Hbad') as Hrun.
  destruct (connect_events_quiet tc (connect_events w _ _ _ _ Hc))
    as (_ & _ & Lc & _).
  exists (if malformed (parsed w) then MsgInvalidInput else MsgInvalidRange).
  split; [destruct (malformed (parsed w)); tauto|].
  split; [exact Hrun|]. split.
  - rewrite Hrun. cbn [fst]. rewrite !forallb_app, Lc.
    destruct (malformed (parsed w)); reflexivity.
  - destruct (connect_starts w 0%nat) as [t Et]. rewrite Hc in Et.
    cbn [fst] in Et. rewrite Et. reflexivity.
Qed.

Lemma refused_inputs_exit_before_ledger_witness :
  exists m,
    (m = MsgInvalidInput \/ m = MsgInvalidRange)
    /\ run malformed_min 10
       = (fst (fst (connect malformed_min 0%nat)) ++ prompts
            ++ [EvLog m; EvExit 1], Exited 1)
    /\ forallb (fun e => negb (is_ledger_call e))
               (fst (run malformed_min 10)) = true
    /\ existsb is_connect (fst (fst (connect malformed_min 0%nat))) = true.
Proof.
  apply (refused_inputs_exit_before_ledger malformed_min 10 V6
           (fst (fst (connect malformed_min 0%nat))) 0%nat);
    vm_compute; reflexivity.
Defined.

(** C3 fails as stated: with a loop count of 0 the run ends in the
    validation error, but only after a network call - the connection to
    the endpoint was attempted, and made, first. *)
Lemma validation_follows_connection :
  snd (run zero_loops 10) = Exited 1
  /\ nth_error (fst (run zero_loops 10)) 0 = Some (EvGetNetwork 1)
  /\ In (EvLog MsgInvalidRange) (fst (run zero_loops 10))
  /\ existsb is_network_call (fst (run zero_loops 10)) = true.
Proof.
  split; [vm_compute; reflexivity|]. split; [vm_compute; reflexivity|].
  split; [|vm_compute; reflexivity].
  apply (nth_error_In _ 11). vm_compute. reflexivity.
Qed.

(** *** The allowance guard *)

(** Whatever the shape and the replies, at most one approval is
    submitted, and it asks for the largest uint256. *)
Lemma approve_at_most_once w sh maxVal k :
  let t := fst (fst (ensure_allowance w sh maxVal k)) in
  filter is_approve t = [] \/ filter is_approve t = [EvApprove MaxUint256].
Proof.
  cbv zeta. rewrite ensure_allowance_run.
  destruct (decimals_reply w) as [d|]; [|left; reflexivity].
  destruct (parseUnits (toString maxVal) d) as [need|e]; [|left; reflexivity].
  destruct (allowance_reply w) as [al|]; [|left; reflexivity].
  destruct (allowTooSmall sh al need); [|left; reflexivity].
  destruct (approve_reply w); right; reflexivity.
Qed.

(** With shape V6 the approval is submitted exactly when the allowance is
    below the threshold. *)
Lemma allowance_guard_v6 w maxVal k d need al :
  decimals_reply w = Some d ->
  parseUnits (toString maxVal) d = Ok need ->
  allowance_reply w = Some al ->
  filter is_approve (fst (fst (ensure_allowance w V6 maxVal k)))
  = if al <? need then [EvApprove MaxUint256] else [].
Proof.
  intros Hd Hp Ha. rewrite ensure_allowance_run, Hd, Hp, Ha.
  cbn [allowTooSmall]. destruct (al <? need); [|reflexivity].
  destruct (approve_reply w); reflexivity.
Qed.

(** C4, at the failing input.  Under shape V5, an allowance of 1000000
    units against a threshold of 500000 units is sufficient, and yet the
    approval is submitted: the comparison of line 136 falls through to
    [<] on two BigNumber objects, which compares their decimal texts.
    The same holdings under shape V6 submit no approval. *)
Theorem v5_reapproves_sufficient_allowance :
  ethers_shape v5_sufficient = Some V5
  /\ allowance_reply v5_sufficient = Some 1000000
  /\ parseUnits (toString (maxVal (parsed v5_sufficient))) 6 = Ok 500000
  /\ (1000000 <? 500000) = false
  /\ allowTooSmall V5 1000000 500000 = true
  /\ In (EvApprove MaxUint256) (fst (run v5_sufficient 5))
  /\ filter is_approve (fst (run v6_sufficient 5)) = [].
Proof.
  do 5 (split; [vm_compute; reflexivity|]).
  split; [|vm_compute; reflexivity].
  apply (nth_error_In _ 16). vm_compute. reflexivity.
Qed.

(** *** The loop count *)

Lemma digit_not_space c : is_digit c = true -> is_space c = false.
Proof.
  unfold is_digit, is_space. intros H. apply andb_prop in H as [H1 H2].
  apply Z.leb_le in H1, H2.
  replace (code c <=? 13) with false by (symmetry; apply Z.leb_gt; lia).
  replace (code c =? 32) with false by (symmetry; apply Z.eqb_neq; lia).
  rewrite andb_false_r. reflexivity.
Qed.






End RunClaims.

Module GeneralFacts.
Import Num Str JS Ledger Bot Obs.
Import NumFacts StrFacts LedgerFacts FixedFacts ToStringFacts ValidFacts BotFacts RunFacts.
Local Open Scope bot_scope.

(** *** The connection phase, for every world *)

(** The connection loop never touches [Math.random]. *)
Lemma connect_loop_counter w f : forall attempt k,
  snd (fst (connect_loop w f attempt k)) = k.
Proof.
  induction f as [|f IH]; intros attempt k; [reflexivity|].
  destruct (Z.leb_spec attempt 8) as [Hle|Hgt].
  - rewrite connect_loop_step by exact Hle.
    destruct (network_up w attempt); [reflexivity|].
    destruct (attempt =? 8); [reflexivity|].
    specialize (IH (attempt + 1) k).
    destruct (connect_loop w f (attempt + 1) k) as [[t k'] r].
    exact IH.
  - cbn [connect_loop]. unfold MAX_ATTEMPTS.
    replace (attempt <=? 8) with false by (symmetry; apply Z.leb_gt; lia).
    reflexivity.
Qed.

(** With enough fuel for the remaining attempts the loop ends by
    connecting or by [process.exit(1)] as its last event. *)
Lemma connect_loop_ends w f : forall attempt k,
  (1 <= f)%nat -> 9 <= attempt + Z.of_nat f ->
  let '(t, _, r) := connect_loop w f attempt k in
  (r = Returned tt /\ forallb no_exit t = true)
  \/ (r = Exited 1
      /\ exists t', t = t' ++ [EvExit 1] /\ forallb no_exit t' = true).
Proof.
  induction f as [|f IH]; intros attempt k Hf Hsum; [lia|].
  destruct (Z.leb_spec attempt 8) as [Hle|Hgt].
  - rewrite connect_loop_step by exact Hle.
    destruct (network_up w attempt); [left; split; reflexivity|].
    destruct (Z.eqb_spec attempt 8) as [E|NE].
    + right. split; [reflexivity|].
      exists [EvGetNetwork attempt; EvLog (MsgAttemptFailed attempt);
              EvLog MsgExceeded]. split; reflexivity.
    + specialize (IH (attempt + 1) k ltac:(lia) ltac:(lia)).
      destruct (connect_loop w f (attempt + 1) k) as [[t k'] r].
      cbn [prepend]. destruct IH as [[Hr Ht]|(Hr & t' & Et & Ht')].
      * left. split; [exact Hr|]. cbn [app forallb no_exit andb]. exact Ht.
      * right. split; [exact Hr|]. subst t.
        eexists (_ :: _ :: _ :: _ :: t'). split; [reflexivity|].
        cbn [forallb no_exit andb]. exact Ht'.
  - cbn [connect_loop]. unfold MAX_ATTEMPTS.
    replace (attempt <=? 8) with false by (symmetry; apply Z.leb_gt; lia).
    left. split; reflexivity.
Qed.

(** How the connection phase ends. *)
Lemma connect_result w k :
  exists tc r,
    connect w k = (tc, k, r)
    /\ forallb connect_event tc = true
    /\ ((r = Returned tt /\ forallb no_exit tc = true)
        \/ (r = Exited 1
            /\ exists t', tc = t' ++ [EvExit 1]
                          /\ forallb no_exit t' = true)).
Proof.
  pose proof (connect_loop_counter w 9 1 k) as Hk.
  pose proof (connect_loop_events w 9 1 k) as He.
  pose proof (connect_loop_ends w 9 1 k ltac:(lia) ltac:(lia)) as Hend.
  unfold connect. destruct (connect_loop w 9 1 k) as [[tc k'] r].
  cbn [fst snd] in Hk, He. subst k'.
  exists tc, r. split; [reflexivity|]. split; [exact He|exact Hend].
Qed.

(** *** The submission loop, for every world *)

(** One pass of the loop body either throws before it has done anything
    (the amount could not be formatted or parsed) or completes with the
    trace of [iteration_shape]: a failed submission is caught. *)
Lemma iteration_any w cfg d v i k :
  (exists e, iteration w cfg d v i k = ([], S k, Thrown e))
  \/ (exists t k', iteration w cfg d v i k = (t, k', Returned tt)
                   /\ iteration_shape w cfg d v i t).
Proof.
  unfold iteration_shape, iteration, randomFloat, math_random. mstep.
  fold (draw w cfg k).
  destruct (toFixed (draw w cfg k) d) as [s|e] eqn:Ef; mstep;
    [|left; eexists; reflexivity].
  destruct (parseUnits s d) as [amt|e] eqn:Ep; mstep;
    [|left; eexists; reflexivity].
  right. unfold reply_events, requested_sleep.
  fold (delay_draw w cfg (S k)).
  destruct (subscribe_reply w i); cbn [submitted confirmed]; mstep;
    destruct (lt i (loops cfg)); mstep;
    eexists _, _; (split; [reflexivity|]);
    exists k, s, amt; eexists; (split; [exact Ef|]);
    (split; [exact Ep|]); (split; [reflexivity|]);
    first [left; split; reflexivity | right; split; reflexivity].
Qed.

(** The loop is a sequence of completed passes; it returns, or throws
    between two passes, or outlives its fuel, and never exits the
    process. *)
Lemma loop_any w cfg d v fuel : forall i k,
  exists ts k' r,
    subscribe_loop w cfg d v fuel i k = (concat ts, k', r)
    /\ Forall (fun t => exists j, iteration_shape w cfg d v j t) ts
    /\ (r = Returned tt \/ (exists e, r = Thrown e) \/ r = OutOfFuel).
Proof.
  induction fuel as [|f IH]; intros i k; cbn [subscribe_loop].
  - exists [], k, OutOfFuel. split; [reflexivity|]. split; [constructor|tauto].
  - destruct (le i (loops cfg)).
    2:{ exists [], k, (Returned tt). split; [reflexivity|].
        split; [constructor|tauto]. }
    destruct (iteration_any w cfg d v i k) as [(e & Ei)|(ti & k1 & Ei & Si)].
    + rewrite (bind_thrown _ _ _ _ _ _ Ei).
      exists [], (S k), (Thrown e). split; [reflexivity|].
      split; [constructor|]. right. left. eexists. reflexivity.
    + rewrite (bind_returned _ _ _ _ _ _ Ei).
      destruct (IH (add i one) k1) as (ts & k2 & rl & El & Ll & Hl).
      rewrite El. exists (ti :: ts), k2, rl. split; [reflexivity|].
      split; [|exact Hl]. constructor; [exists i; exact Si|exact Ll].
Qed.

(** *** The allowance check, for every world *)

Lemma ensure_allowance_any w sh maxVal k :
  exists ta r,
    ensure_allowance w sh maxVal k = (ta, k, r)
    /\ ((exists e, r = Thrown e)
        \/ (exists d need al,
              r = Returned d /\ decimals_reply w = Some d
              /\ parseUnits (toString maxVal) d = Ok need
              /\ allowance_reply w = Some al
              /\ (allowTooSmall sh al need = true
                  -> approve_reply w = Confirmed)
              /\ In EvAllowance ta
              /\ (allowTooSmall sh al need = true -> In EvApproveWait ta))).
Proof.
  rewrite ensure_allowance_run.
  destruct (decimals_reply w) as [d|] eqn:Hd.
  2:{ eexists _, _. split; [reflexivity|]. left. eexists. reflexivity. }
  destruct (parseUnits (toString maxVal) d) as [need|e] eqn:Hp.
  2:{ eexists _, _. split; [reflexivity|]. left. eexists. reflexivity. }
  destruct (allowance_reply w) as [al|] eqn:Hal.
  2:{ eexists _, _. split; [reflexivity|]. left. eexists. reflexivity. }
  destruct (allowTooSmall sh al need) eqn:Hsmall.
  - destruct (approve_reply w) eqn:Hrep; cbn [prepend app];
      eexists _, _; (split; [reflexivity|]);
      first [ right; exists d, need, al; rewrite Hsmall;
              repeat split; try reflexivity; cbn [In]; tauto
            | left; eexists; reflexivity ].
  - cbn [prepend app]. eexists _, _. split; [reflexivity|].
    right. exists d, need, al. rewrite Hsmall.
    repeat split; try reflexivity; try discriminate; try assumption;
      cbn [In]; tauto.
Qed.

(** *** The whole run, for every world *)

(** Every run ends in one of the ways of [run_end]. *)
Lemma run_ends w fuel : run_end w fuel (run w fuel).
Proof.
  destruct (env_present w) eqn:He.
  2:{ unfold run, main. rewrite He. apply end_missing_env. exact He. }
  destruct (ethers_shape w) as [sh|] eqn:Hs.
  2:{ unfold run, main. rewrite He, Hs. apply end_no_ethers; assumption. }
  destruct (connect_result w 0%nat)
    as (tc & r & Hc & Ec & [[Hr Nc]|(Hr & t' & Et & Nt)]); subst r.
  2:{ unfold run, main. rewrite He, Hs. cbn [negb].
      rewrite (bind_exited _ _ _ _ _ _ Hc). subst tc.
      rewrite forallb_app in Ec. apply andb_prop in Ec as [Ec _].
      apply (end_unreachable w fuel sh); assumption. }
  assert (Hcon : connected w sh tc) by (repeat split; assumption).
  destruct (address_reply w) eqn:Ha.
  2:{ rewrite (run_connected w fuel sh tc _ He Hs Hc).
      unfold try_catch, body.
      rewrite (bind_thrown _ _ _ _ _ _ (read_inputs_no_address w _ Ha)).
      apply (end_no_address w fuel sh); assumption. }
  destruct (malformed (parsed w) || out_of_range (parsed w))%bool eqn:Hbad.
  { rewrite (run_refused w fuel sh tc _ He Hs Hc Ha Hbad).
    apply (end_refused w fuel sh); assumption. }
  apply orb_false_elim in Hbad as [Hm Hr].
  assert (Hacc : accepted w) by (repeat split; assumption).
  rewrite (run_accepted w fuel sh tc _ He Hs Hc Ha Hm Hr).
  destruct (ensure_allowance_any w sh (maxVal (parsed w)) 0%nat)
    as (ta & ra & Ea & [(e & Hra)|(d & need & al & Hra & _)]); subst ra.
  { unfold try_catch. rewrite (bind_thrown _ _ _ _ _ _ Ea).
    cbn [log emit exit bind prepend app].
    apply (end_guard w fuel sh); assumption. }
  unfold try_catch. rewrite (bind_returned _ _ _ _ _ _ Ea).
  destruct (parseEther (SUBSCRIBE_VALUE w)) as [v|e] eqn:Hv.
  2:{ cbn [lift bind throw prepend log emit exit app].
      rewrite app_nil_r.
      apply (end_value w fuel sh tc ta d e); assumption. }
  cbn [lift]. unfold bind at 1. cbn [ret prepend app].
  unfold bind at 1. cbn [log emit prepend app].
  destruct (subscribe_loop w (parsed w) d v fuel one 0%nat)
    as [[tl k] rl] eqn:El.
  pose proof (end_loop w fuel sh tc ta d v tl k rl Hcon Hacc Ea Hv El) as F.
  destruct (loop_any w (parsed w) d v fuel one 0%nat)
    as (ts & k2 & r2 & E2 & _ & Hr2).
  rewrite El in E2. injection E2 as _ _ Er2. subst r2.
  destruct Hr2 as [Hr2|[(e & Hr2)|Hr2]]; subst rl.
  - rewrite (bind_returned _ _ _ _ _ _ El).
    cbn [log emit prepend app closing fst snd] in F |- *.
    rewrite <- ?app_assoc. cbn [app]. rewrite <- ?app_assoc in F.
    cbn [app] in F. exact F.
  - rewrite (bind_thrown _ _ _ _ _ _ El).
    cbn [log emit exit bind prepend app closing fst snd] in F |- *.
    rewrite <- ?app_assoc. cbn [app]. rewrite <- ?app_assoc in F.
    cbn [app] in F. exact F.
  - unfold bind at 1. rewrite El.
    cbn [closing fst snd] in F. rewrite app_nil_r in F.
    rewrite <- ?app_assoc. cbn [app]. rewrite <- ?app_assoc in F.
    cbn [app] in F. exact F.
Qed.

(** *** What the pieces of a trace contain *)

Lemma filter_none (f Q : event -> bool) t :
  (forall e, Q e = true -> f e = false) ->
  forallb Q t = true -> filter f t = [].
Proof.
  intros H. induction t as [|e t IH]; intros Ht; [reflexivity|].
  cbn [forallb] in Ht. apply andb_prop in Ht as [He Ht].
  cbn [filter]. rewrite (H e He). exact (IH Ht).
Qed.

Lemma forallb_weaken (Q R : event -> bool) t :
  (forall e, Q e = true -> R e = true) ->
  forallb Q t = true -> forallb R t = true.
Proof.
  intros H. induction t as [|e t IH]; intros Ht; [reflexivity|].
  cbn [forallb] in Ht |- *. apply andb_prop in Ht as [He Ht].
  rewrite (H e He), (IH Ht). reflexivity.
Qed.

Lemma forallb_In (Q : event -> bool) t e :
  forallb Q t = true -> In e t -> Q e = true.
Proof. intros H Hin. rewrite forallb_forall in H. exact (H e Hin). Qed.

Lemma subscribed_filter t :
  subscribed t = subscribed (filter is_submission_call t).
Proof.
  induction t as [|e t IH]; [reflexivity|].
  cbn [filter]. destruct e; cbn [is_submission_call subscribed flat_map app];
    fold (subscribed t); try exact IH;
    fold (subscribed (filter is_submission_call t)); rewrite IH; reflexivity.
Qed.

(** Decides a fact about every event of a class by enumeration. *)
Ltac by_event :=
  let e := fresh "e" in let m := fresh "m" in
  intros e; destruct e as [m| | | | | | | | | | |];
  try destruct m; intros; try reflexivity; try discriminate.

Lemma connected_events w sh tc :
  connected w sh tc ->
  forallb connect_event tc = true /\ forallb no_exit tc = true.
Proof.
  intros (_ & _ & Hc).
  destruct (connect_result w 0%nat)
    as (tc' & r & Hc' & Ec & [[Hr Nc]|(Hr & _)]); subst r;
    rewrite Hc in Hc'; [|discriminate].
  injection Hc' as ->. split; assumption.
Qed.

(** Getting connected takes an attempt that succeeded. *)
Lemma connected_attempt w sh tc :
  connected w sh tc -> exists a, 1 <= a <= 8 /\ network_up w a = true.
Proof.
  intros (_ & _ & Hc).
  destruct (network_up w 1) eqn:H1; [exists 1; split; [lia|assumption]|].
  destruct (network_up w 2) eqn:H2; [exists 2; split; [lia|assumption]|].
  destruct (network_up w 3) eqn:H3; [exists 3; split; [lia|assumption]|].
  destruct (network_up w 4) eqn:H4; [exists 4; split; [lia|assumption]|].
  destruct (network_up w 5) eqn:H5; [exists 5; split; [lia|assumption]|].
  destruct (network_up w 6) eqn:H6; [exists 6; split; [lia|assumption]|].
  destruct (network_up w 7) eqn:H7; [exists 7; split; [lia|assumption]|].
  destruct (network_up w 8) eqn:H8; [exists 8; split; [lia|assumption]|].
  exfalso.
  assert (Hall : forall a, 1 <= a <= 8 -> network_up w a = false).
  { intros a Ha.
    assert (a = 1 \/ a = 2 \/ a = 3 \/ a = 4 \/ a = 5 \/ a = 6 \/ a = 7
            \/ a = 8) as Hcases by lia.
    repeat (destruct Hcases as [->|Hcases]; [assumption|]).
    subst a. assumption. }
  rewrite (ConnectClaims.connect_all_fail w 0%nat Hall) in Hc. discriminate.
Qed.

Lemma guard_events w sh maxVal k :
  forallb guard_event (fst (fst (ensure_allowance w sh maxVal k))) = true.
Proof.
  rewrite ensure_allowance_run.
  destruct (decimals_reply w) as [d|]; [|reflexivity].
  destruct (parseUnits (toString maxVal) d) as [need|e]; [|reflexivity].
  destruct (allowance_reply w) as [al|]; [|reflexivity].
  destruct (allowTooSmall sh al need); [|reflexivity].
  destruct (approve_reply w); reflexivity.
Qed.

Lemma reply_events_loop w i : forallb loop_event (reply_events w i) = true.
Proof. unfold reply_events. destruct (subscribe_reply w i); reflexivity. Qed.

Lemma shape_events w cfg d v i t :
  iteration_shape w cfg d v i t -> forallb loop_event t = true.
Proof.
  intros (k & s & amt & tail & _ & _ & -> & [[_ ->]|[_ ->]]);
    cbn [app forallb loop_event andb]; rewrite forallb_app, reply_events_loop;
    reflexivity.
Qed.

Lemma shapes_events w cfg d v ts :
  Forall (fun t => exists j, iteration_shape w cfg d v j t) ts ->
  forallb loop_event (concat ts) = true.
Proof.
  induction 1 as [|t ts (j & Ht) _ IH]; [reflexivity|].
  cbn [concat]. rewrite forallb_app, (shape_events _ _ _ _ _ _ Ht), IH.
  reflexivity.
Qed.

(** The loop of a run, as the sequence of its completed passes. *)
Lemma loop_passes w cfg d v fuel i k tl k' r :
  subscribe_loop w cfg d v fuel i k = (tl, k', r) ->
  exists ts,
    tl = concat ts
    /\ Forall (fun t => exists j, iteration_shape w cfg d v j t) ts.
Proof.
  intros El. destruct (loop_any w cfg d v fuel i k) as (ts & k2 & r2 & E & F & _).
  rewrite El in E. injection E as -> _ _. exists ts. split; [reflexivity|exact F].
Qed.

Lemma closing_events r :
  (forall c, r <> Exited c) ->
  filter is_approve (fst (closing r)) = []
  /\ filter is_submission_call (fst (closing r)) = []
  /\ forallb (fun e => negb (is_network_call e)) (fst (closing r)) = true.
Proof.
  intros H. destruct r as [[]|e|c|]; repeat split.
Qed.

Lemma reply_events_calls w i :
  filter is_submission_call (reply_events w i)
    = match subscribe_reply w i with
      | SendFails => []
      | _ => [EvSubscribeWait i]
      end.
Proof. unfold reply_events. destruct (subscribe_reply w i); reflexivity. Qed.

(** Splits the trace of a run into the pieces of its [run_end] case. *)
Ltac run_cases w fuel :=
  let x := fresh "x" in let Ex := fresh "Ex" in let E := fresh "E" in
  pose proof (run_ends w fuel) as E;
  remember (run w fuel) as x eqn:Ex; clear Ex;
  destruct E; cbn [fst snd].

Lemma no_exit_pieces w sh tc ta k' r (m : shape) maxVal k :
  connected w sh tc ->
  ensure_allowance w m maxVal k = (ta, k', r) ->
  forallb no_exit (tc ++ prompts ++ ta) = true.
Proof.
  intros Hc Ea. destruct (connected_events w sh tc Hc) as [_ Nc].
  pose proof (guard_events w m maxVal k) as G. rewrite Ea in G.
  cbn [fst] in G.
  rewrite !forallb_app, Nc.
  rewrite (forallb_weaken guard_event no_exit ta ltac:(by_event) G).
  reflexivity.
Qed.

Lemma ledger_only_outside f :
  ledger_only f ->
  (forall t, forallb connect_event t = true -> filter f t = [])
  /\ filter f prompts = []
  /\ (forall m c, guard_event (EvLog m) = false ->
                  filter f [EvLog m; EvExit c] = [])
  /\ (forall m, guard_event (EvLog m) = false -> filter f [EvLog m] = [])
  /\ (forall c, f (EvExit c) = false)
  /\ f EvGetAddress = false.
Proof.
  intros Hf. split; [|split; [|split; [|split; [|split]]]].
  - intros t. apply (filter_none f connect_event).
    intros e He. apply Hf; revert He; revert e; by_event.
  - unfold prompts. cbn [filter]. rewrite !Hf by reflexivity. reflexivity.
  - intros m c Hm. cbn [filter].
    rewrite (Hf (EvLog m) Hm), (Hf (EvExit c)) by reflexivity. reflexivity.
  - intros m Hm. cbn [filter]. rewrite (Hf (EvLog m) Hm) by reflexivity.
    reflexivity.
  - intros c. apply Hf; reflexivity.
  - apply Hf; reflexivity.
Qed.

(** What a run does on the ledger is what the allowance check does
    followed by what the completed passes of the loop do. *)
Lemma run_ledger_calls w fuel :
  (forall f, ledger_only f -> filter f (fst (run w fuel)) = [])
  \/ exists sh tc ta r ts d v,
       connected w sh tc /\ accepted w
       /\ ensure_allowance w sh (maxVal (parsed w)) 0%nat = (ta, 0%nat, r)
       /\ (forall f, ledger_only f ->
             filter f (fst (run w fuel))
             = filter f ta ++ filter f (concat ts))
       /\ Forall (fun t => exists j, iteration_shape w (parsed w) d v j t) ts
       /\ (ts <> [] -> r = Returned d
                       /\ parseEther (SUBSCRIBE_VALUE w) = Ok v).
Proof.
  run_cases w fuel.
  - left. intros f Hf.
    destruct (ledger_only_outside f Hf) as (_ & _ & Fx & _).
    apply Fx. reflexivity.
  - left. intros f Hf.
    destruct (ledger_only_outside f Hf) as (_ & _ & Fx & _).
    apply Fx. reflexivity.
  - left. intros f Hf.
    destruct (ledger_only_outside f Hf) as (Fc & _ & _ & _ & Fe & _).
    rewrite filter_app, Fc by assumption. cbn [filter app].
    rewrite Fe. reflexivity.
  - left. intros f Hf.
    destruct (ledger_only_outside f Hf) as (Fc & _ & Fx & _ & _ & Fa).
    destruct (connected_events w sh tc H) as [Ec _].
    rewrite filter_app, Fc by assumption. cbn [filter app].
    rewrite Fa. apply Fx. reflexivity.
  - left. intros f Hf.
    destruct (ledger_only_outside f Hf) as (Fc & Fp & Fx & _).
    destruct (connected_events w sh tc H) as [Ec _].
    rewrite !filter_app, Fc, Fp, Fx
      by (first [assumption|destruct (malformed (parsed w)); reflexivity]).
    reflexivity.
  - right. destruct (connected_events w sh tc H) as [Ec _].
    exists sh, tc, ta, (Thrown e), [], 0, 0.
    split; [assumption|]. split; [assumption|]. split; [assumption|].
    split; [|split; [constructor|intros C; contradiction]].
    intros f Hf. destruct (ledger_only_outside f Hf) as (Fc & Fp & Fx & _).
    rewrite !filter_app, Fc, Fp, Fx by (first [assumption|reflexivity]).
    reflexivity.
  - right. destruct (connected_events w sh tc H) as [Ec _].
    exists sh, tc, ta, (Returned d), [], 0, 0.
    split; [assumption|]. split; [assumption|]. split; [assumption|].
    split; [|split; [constructor|intros C; contradiction]].
    intros f Hf. destruct (ledger_only_outside f Hf) as (Fc & Fp & Fx & _).
    rewrite !filter_app, Fc, Fp, Fx by (first [assumption|reflexivity]).
    reflexivity.
  - right. destruct (connected_events w sh tc H) as [Ec _].
    destruct (loop_any w (parsed w) d v fuel one 0%nat)
      as (ts & k2 & r2 & E2 & Fs & Hr2).
    rewrite H3 in E2. injection E2 as -> _ <-.
    exists sh, tc, ta, (Returned d), ts, d, v.
    split; [assumption|]. split; [assumption|]. split; [assumption|].
    split; [|split; [exact Fs|intros _; split; [reflexivity|assumption]]].
    intros f Hf.
    destruct (ledger_only_outside f Hf) as (Fc & Fp & Fx & Fl & _).
    rewrite !filter_app, Fc, Fp, Fl by (first [assumption|reflexivity]).
    cbn [app]. f_equal.
    assert (Fz : filter f (fst (closing r)) = []).
    { destruct Hr2 as [->|[(e & ->)| ->]]; cbn [closing fst];
        [apply Fl; reflexivity|apply Fx; reflexivity|reflexivity]. }
    rewrite Fz, app_nil_r. reflexivity.
Qed.

(** The allowance check by what it prints and submits. *)
Lemma guard_lines w sh maxVal k al :
  In (EvLog (MsgAllowance al)) (fst (fst (ensure_allowance w sh maxVal k))) ->
  exists d need,
    decimals_reply w = Some d
    /\ parseUnits (toString maxVal) d = Ok need
    /\ allowance_reply w = Some al
    /\ filter is_approve (fst (fst (ensure_allowance w sh maxVal k)))
       = (if allowTooSmall sh al need then [EvApprove MaxUint256] else []).
Proof.
  rewrite ensure_allowance_run.
  destruct (decimals_reply w) as [d|] eqn:Hd.
  2:{ cbn [fst In]. intros [H|[]]. discriminate. }
  destruct (parseUnits (toString maxVal) d) as [need|e] eqn:Hp.
  2:{ cbn [fst In]. intros [H|[H|[]]]; discriminate. }
  destruct (allowance_reply w) as [al0|] eqn:Hal.
  2:{ cbn [fst In]. intros [H|[H|[H|[]]]]; discriminate. }
  intros Hin. exists d, need.
  assert (al0 = al).
  { destruct (allowTooSmall sh al0 need); [destruct (approve_reply w)|];
      cbn [prepend app fst In] in Hin;
      repeat (destruct Hin as [Hin|Hin];
              [first [discriminate|injection Hin as ->; reflexivity]|]);
      contradiction. }
  subst al0. split; [first [reflexivity|assumption]|].
  split; [first [reflexivity|assumption]|].
  split; [first [reflexivity|assumption]|].
  destruct (allowTooSmall sh al need); [destruct (approve_reply w)|];
    reflexivity.
Qed.

(** *** Amounts *)

Lemma toFixed_ok_range x d s : toFixed x d = Ok s -> 0 <= d <= 100.
Proof.
  unfold toFixed. destruct (Z.ltb_spec d 0); [discriminate|].
  destruct (Z.ltb_spec 100 d); [discriminate|]. intros _. lia.
Qed.

Lemma fixed_int_mono a b d :
  0 <= d -> a <= b -> fixed_int a d <= fixed_int b d.
Proof.
  intros Hd Hab. unfold fixed_int.
  assert (0 < unit_scale) by (apply Z.pow_pos_nonneg; lia).
  assert (0 < 10 ^ d) by (apply Z.pow_pos_nonneg; lia).
  apply Z.div_le_mono; [lia|].
  apply Z.add_le_mono_r. apply Z.mul_le_mono_nonneg_r; lia.
Qed.

(** A [subscribe] found in a completed pass is the one of that pass. *)
Lemma shape_submission w cfg d v j t i amt v' :
  iteration_shape w cfg d v j t -> In (EvSubscribe i amt v') t ->
  i = j /\ v' = v
  /\ exists k s, toFixed (draw w cfg k) d = Ok s /\ parseUnits s d = Ok amt.
Proof.
  intros (k & s & amt0 & tail & Hf & Hp & -> & Htail) Hin.
  cbn [app In] in Hin. destruct Hin as [Hin|[Hin|Hin]]; [discriminate| |].
  - injection Hin as <- <- <-. split; [reflexivity|]. split; [reflexivity|].
    exists k, s. split; assumption.
  - exfalso. apply in_app_or in Hin as [Hin|Hin].
    + unfold reply_events in Hin.
      destruct (subscribe_reply w j); cbn [In] in Hin;
        repeat (destruct Hin as [Hin|Hin]; [discriminate|]); exact Hin.
    + destruct Htail as [[_ ->]|[_ ->]]; cbn [In] in Hin;
        repeat (destruct Hin as [Hin|Hin]; [discriminate|]); exact Hin.
Qed.

(** The calls of a completed pass: the submission, then the wait for its
    confirmation unless it was rejected. *)
Lemma shape_calls w cfg d v j t :
  iteration_shape w cfg d v j t ->
  exists amt,
    filter is_submission_call t
    = EvSubscribe j amt v
      :: match subscribe_reply w j with
         | SendFails => []
         | _ => [EvSubscribeWait j]
         end.
Proof.
  intros (k & s & amt & tail & _ & _ & -> & Htail). exists amt.
  cbn [app filter is_submission_call]. f_equal.
  rewrite filter_app, reply_events_calls.
  replace (filter is_submission_call tail) with (@nil event)
    by (destruct Htail as [[_ ->]|[_ ->]]; reflexivity).
  apply app_nil_r.
Qed.

(** *** The loop count *)

(** A loop count that passes the validation is at least one. *)
Lemma accepted_count s :
  isNaN (parseInt s) = false -> le (parseInt s) zero = false ->
  le one (parseInt s) = true.
Proof.
  unfold parseInt.
  destruct (split_sign (drop_while is_space s)) as [neg t].
  set (p := match t with
            | z :: c :: r =>
                if (Ascii.eqb z "0" && (Ascii.eqb c "x" || Ascii.eqb c "X"))%bool
                then (16, r) else (10, t)
            | _ => (10, t)
            end).
  destruct p as [radix t'].
  destruct (take_while (radix_digit radix) t') as [|c ds]; [discriminate|].
  set (m := if neg then - radix_val radix (c :: ds)
            else radix_val radix (c :: ds)).
  clearbody m. intros _. unfold of_Z, of_rat.
  pose proof unit_scale_pos as U.
  destruct (Z.ltb_spec (m * unit_scale) 0) as [Hneg|Hpos].
  - pose proof (round_nonneg (Z.abs (m * unit_scale)) 1 ltac:(lia) ltac:(lia)).
    destruct (max_units <? _); [discriminate|].
    unfold le, zero. intros H0. apply Z.leb_gt in H0. lia.
  - rewrite Z.abs_eq by lia.
    destruct (max_units <? _); [reflexivity|].
    unfold le, zero, one. intros H0. apply Z.leb_gt in H0.
    apply Z.leb_le.
    destruct (Z.eq_dec m 0) as [->|Hm].
    + exfalso. cbn [Z.mul] in H0.
      pose proof (round_le_grid 0 1 0 ltac:(lia) ltac:(lia) eq_refl
                    ltac:(lia)). lia.
    + destruct (small_int_on_grid 1 ltac:(lia)) as [A _].
      rewrite Z.mul_1_l in A.
      apply round_ge_grid; try lia; [exact A|nia].
Qed.



End GeneralFacts.

Module FunctionBehaviour.
Import Num Str JS Ledger Bot Obs Scenarios.
Import NumFacts StrFacts LedgerFacts FixedFacts ToStringFacts ValidFacts BotFacts RunFacts GeneralFacts.
Local Open Scope bot_scope.

(** X1.  [randomFloat(min, max)] stays within its bounds in binary64
    arithmetic: for finite [0 <= min <= max] and a [Math.random()] in
    [[0, 1)], the value of [Math.random() * (max - min) + min], with its
    three roundings, is a finite double between [min] and [max], both
    included; the call draws one random number and does nothing else. *)
Theorem randomFloat_within (w : world) (lo hi : Z) (k : nat) :
  fair_random w ->
  0 <= lo <= hi -> on_grid lo = true -> on_grid hi = true ->
  exists x,
    randomFloat w (Fin lo) (Fin hi) k = ([], S k, Returned (Fin x))
    /\ lo <= x <= hi /\ on_grid x = true.
Proof.
  intros Hrand Hlh Glo Ghi.
  destruct (Hrand k) as (r & Er & Hr & Gr).
  destruct (affine_range r lo hi Hr Gr Hlh Glo Ghi) as (x & Ex & Hx & Gx).
  exists x. split; [|split; assumption].
  unfold randomFloat, math_random. mstep. rewrite Er, Ex. reflexivity.
Qed.

Lemma randomFloat_within_witness :
  exists x,
    randomFloat three_loops
      (Fin (match of_decimal 1 (-1) with Fin u => u | _ => 0 end))
      (Fin (match of_decimal 5 (-1) with Fin u => u | _ => 0 end)) 0%nat
    = ([], 1%nat, Returned (Fin x))
    /\ match of_decimal 1 (-1) with Fin u => u | _ => 0 end <= x
       <= match of_decimal 5 (-1) with Fin u => u | _ => 0 end
    /\ on_grid x = true.
Proof.
  apply (randomFloat_within three_loops).
  - intros k.
    exists (match of_decimal 75 (-2) with Fin u => u | _ => 0 end).
    split; [vm_compute; reflexivity|].
    split; [split; [apply Z.leb_le|apply Z.ltb_lt]|]; vm_compute; reflexivity.
  - split; apply Z.leb_le; vm_compute; reflexivity.
  - vm_compute. reflexivity.
  - vm_compute. reflexivity.
Defined.

(** X2.  The threshold of line 132 denotes the configured maximum:
    whenever [parseUnits(max.toString(), d)] accepts the text of a
    positive double [max] and answers [K], the decimal [K / 10^d] is
    positive and is read back as exactly [max]; and [max] is at most
    [10^21], larger values being printed in exponent form, which the
    parser refuses. *)
Theorem threshold_denotes_maximum (b d K : Z) :
  0 < b -> on_grid b = true -> 0 <= d ->
  parseUnits (toString (Fin b)) d = Ok K ->
  0 < K /\ of_rat (K * unit_scale) (10 ^ d) = Fin b
  /\ b <= 10 ^ 21 * unit_scale.
Proof.
  intros Hb G Hd Hp.
  destruct (threshold_reads_back b d K Hb G Hd Hp) as (HK & Hr & Hmax).
  split; [exact HK|]. split; [|exact Hmax].
  assert (U : 0 < unit_scale) by (apply Z.pow_pos_nonneg; lia).
  unfold of_rat.
  replace (K * unit_scale <? 0) with false by (symmetry; apply Z.ltb_ge; nia).
  rewrite Z.abs_eq by nia. rewrite Hr.
  unfold on_grid in G. apply andb_prop in G as [_ G]. apply Z.leb_le in G.
  replace (max_units <? b) with false by (symmetry; apply Z.ltb_ge; lia).
  reflexivity.
Qed.

Lemma threshold_denotes_maximum_witness :
  0 < 500000
  /\ of_rat (500000 * unit_scale) (10 ^ 6)
     = Fin (match of_decimal 5 (-1) with Fin u => u | _ => 0 end)
  /\ match of_decimal 5 (-1) with Fin u => u | _ => 0 end
     <= 10 ^ 21 * unit_scale.
Proof.
  apply (threshold_denotes_maximum
           (match of_decimal 5 (-1) with Fin u => u | _ => 0 end) 6 500000).
  - apply Z.ltb_lt. vm_compute. reflexivity.
  - vm_compute. reflexivity.
  - lia.
  - vm_compute. reflexivity.
Defined.

(** Strings of digits of the same length compare as their values. *)
Lemma str_lt_digits s : forall t,
  forallb is_digit s = true -> forallb is_digit t = true ->
  length s = length t ->
  str_lt s t = (digits_val s <? digits_val t).
Proof.
  induction s as [|a s IH]; intros [|b t] Hs Ht Hl; try discriminate.
  - reflexivity.
  - cbn [forallb] in Hs, Ht. apply andb_prop in Hs as [Ha Hs].
    apply andb_prop in Ht as [Hb Ht]. cbn [length] in Hl.
    injection Hl as Hl.
    cbn [str_lt]. rewrite !digits_val_cons, <- Hl.
    pose proof (digits_val_bounds s Hs) as Bs.
    pose proof (digits_val_bounds t Ht) as Bt. rewrite <- Hl in Bt.
    set (P := 10 ^ Z.of_nat (length s)) in *.
    assert (HP : 0 < P) by (subst P; apply Z.pow_pos_nonneg; lia).
    unfold digit_val.
    destruct (Z.ltb_spec (code a) (code b)) as [Hab|Hab].
    + symmetry. apply Z.ltb_lt.
      assert ((code a - 48 + 1) * P <= (code b - 48) * P)
        by (apply Z.mul_le_mono_nonneg_r; lia).
      lia.
    + destruct (Z.ltb_spec (code b) (code a)) as [Hba|Hba].
      * symmetry. apply Z.ltb_ge.
        assert ((code b - 48 + 1) * P <= (code a - 48) * P)
          by (apply Z.mul_le_mono_nonneg_r; lia).
        lia.
      * replace (code b) with (code a) by lia.
        rewrite (IH t Hs Ht Hl).
        destruct (Z.ltb_spec (digits_val s) (digits_val t));
          symmetry; [apply Z.ltb_lt|apply Z.ltb_ge]; lia.
Qed.

(** X3.  Under ethers v5 the comparison of line 136 falls back on the
    order of the decimal texts.  It is still the numeric comparison
    whenever the allowance has no more digits than the threshold: the
    guard can only ask for a needless approval when the allowance is
    written with more digits than the threshold. *)
Theorem v5_guard_exact_without_more_digits (al need : Z) :
  0 <= al -> 0 <= need ->
  (length (show_int al) <= length (show_int need))%nat ->
  allowTooSmall V5 al need = (al <? need).
Proof.
  intros Hal Hneed Hlen. unfold allowTooSmall, show_int in *.
  replace (al <? 0) with false in * by (symmetry; apply Z.ltb_ge; lia).
  replace (need <? 0) with false in * by (symmetry; apply Z.ltb_ge; lia).
  destruct (digits_of_spec al Hal) as (Da & Va & La & Pa).
  destruct (digits_of_spec need Hneed) as (Dn & Vn & Ln & Pn).
  destruct (Nat.eq_dec (length (digits_of al)) (length (digits_of need)))
    as [Heq|Hne].
  - rewrite (str_lt_digits _ _ Da Dn Heq), Va, Vn. apply orb_diag.
  - assert (Hlt : al < need).
    { assert (Hn0 : 0 < need).
      { destruct (Z.eq_dec need 0) as [->|]; [|lia].
        rewrite digits_of_0 in Hlen, Hne. cbn [length] in Hlen, Hne. lia. }
      specialize (Ln Hn0).
      pose proof (digits_val_bounds _ Da) as Ba. rewrite Va in Ba.
      assert (10 ^ Z.of_nat (length (digits_of al))
              <= 10 ^ (Z.of_nat (length (digits_of need)) - 1))
        by (apply Z.pow_le_mono_r; lia).
      lia. }
    replace (al <? need) with true by (symmetry; apply Z.ltb_lt; lia).
    reflexivity.
Qed.

Lemma v5_guard_exact_without_more_digits_witness :
  allowTooSmall V5 999999 500000 = (999999 <? 500000).
Proof.
  apply (v5_guard_exact_without_more_digits 999999 500000).
  - lia.
  - lia.
  - vm_compute. apply le_n.
Defined.

(** X4.  [parseFloat] reads the longest numeric prefix of an answer and
    ignores what follows: digits, a point and further digits, followed
    by any character that is neither a digit nor an exponent mark, parse
    as if the text ended there.  So an amount such as 0.5 followed by a
    unit is taken as 0.5. *)
Theorem parseFloat_ignores_trailing_text (ip fp : jsstring) (c : ascii)
    (rest : jsstring) :
  forallb is_digit ip = true -> ip <> [] -> forallb is_digit fp = true ->
  is_digit c = false -> Ascii.eqb c "e" = false -> Ascii.eqb c "E" = false ->
  parseFloat (ip ++ "."%char :: fp ++ c :: rest)
  = parseFloat (ip ++ "."%char :: fp)
  /\ parseFloat (ip ++ "."%char :: fp)
     = of_decimal (digits_val (ip ++ fp)) (- Z.of_nat (length fp)).
Proof.
  intros Hip Hne Hfp Hc He HE.
  assert (Hpoint : is_digit "." = false) by reflexivity.
  assert (Hparse : forall tail,
            (tail = [] \/ tail = c :: rest) ->
            parseFloat (ip ++ "."%char :: fp ++ tail)
            = of_decimal (digits_val (ip ++ fp)) (- Z.of_nat (length fp))).
  { intros tail Htail.
    destruct ip as [|c0 r0]; [congruence|].
    pose proof Hip as Hip'. cbn [forallb] in Hip'.
    apply andb_prop in Hip' as [Hc0 _].
    unfold parseFloat. cbn [app drop_while].
    rewrite (RunClaims.digit_not_space c0 Hc0). unfold split_sign.
    rewrite (is_digit_not c0 "-" Hc0), (is_digit_not c0 "+" Hc0)
      by reflexivity.
    replace (starts_with (lit "Infinity") (c0 :: r0 ++ "."%char :: fp ++ tail))
      with false
      by (cbn [lit list_ascii_of_string starts_with];
          rewrite (proj2 (Ascii.eqb_neq _ _)); [reflexivity|];
          intros <-; discriminate Hc0).
    change (c0 :: r0 ++ "."%char :: fp ++ tail)
      with ((c0 :: r0) ++ "."%char :: fp ++ tail).
    rewrite (take_while_app is_digit _ _ _ Hip Hpoint),
            (drop_while_app is_digit _ _ _ Hip Hpoint).
    cbn [Ascii.eqb Bool.eqb].
    assert (Hfrac : take_while is_digit (fp ++ tail) = fp
                    /\ drop_while is_digit (fp ++ tail) = tail).
    { destruct Htail as [->| ->].
      - rewrite app_nil_r. split;
          [apply take_while_all|apply drop_while_all]; exact Hfp.
      - split; [apply take_while_app|apply drop_while_app]; assumption. }
    destruct Hfrac as [-> ->].
    assert (Hexp : exponent_part tail = 0).
    { destruct Htail as [->| ->]; [reflexivity|].
      unfold exponent_part. rewrite He, HE. reflexivity. }
    rewrite Hexp, Z.sub_0_l.
    change (c0 :: r0 ++ fp) with ((c0 :: r0) ++ fp).
    destruct ((c0 :: r0) ++ fp) as [|x l] eqn:E; [discriminate E|].
    reflexivity. }
  pose proof (Hparse [] (or_introl eq_refl)) as Hend.
  rewrite app_nil_r in Hend.
  split; [|exact Hend].
  rewrite (Hparse (c :: rest)) by (right; reflexivity).
  symmetry. exact Hend.
Qed.

Lemma parseFloat_ignores_trailing_text_witness :
  parseFloat (lit "0" ++ "."%char :: lit "5" ++ " "%char :: lit "USDT")
  = parseFloat (lit "0" ++ "."%char :: lit "5")
  /\ parseFloat (lit "0" ++ "."%char :: lit "5")
     = of_decimal (digits_val (lit "0" ++ lit "5"))
                  (- Z.of_nat (length (lit "5"))).
Proof.
  apply (parseFloat_ignores_trailing_text (lit "0") (lit "5") " " (lit "USDT"));
    first [reflexivity|discriminate].
Defined.

End FunctionBehaviour.

Module RunBehaviour.
Import Num Str JS Ledger Bot Obs Scenarios.
Import NumFacts StrFacts LedgerFacts FixedFacts ToStringFacts ValidFacts BotFacts RunFacts GeneralFacts.
Local Open Scope bot_scope.

(** X5.  However a run goes, no exception escapes it and the only exit
    code is 1: a run either completes, its last line being the closing
    one and [process.exit] never called; or it calls [process.exit(1)]
    once, as its very last action; or (in the model) it is still inside
    the submission loop when the fuel runs out.  The loading of the ABI
    file and the construction of the two contracts (lines 85-95) are
    taken to succeed. *)
Theorem exit_discipline (w : world) (fuel : nat) :
  let t := fst (run w fuel) in
  let r := snd (run w fuel) in
  (r = Returned tt /\ forallb no_exit t = true
   /\ exists t', t = t' ++ [EvLog MsgDone])
  \/ (r = Exited 1
      /\ exists t', t = t' ++ [EvExit 1] /\ forallb no_exit t' = true)
  \/ (r = OutOfFuel /\ forallb no_exit t = true).
Proof.
  cbv zeta. run_cases w fuel.
  - right. left. split; [reflexivity|]. exists [EvLog MsgMissingEnv].
    split; reflexivity.
  - right. left. split; [reflexivity|]. exists [EvLog MsgNoEthers].
    split; reflexivity.
  - right. left. split; [reflexivity|]. exists t'. split; [reflexivity|assumption].
  - right. left. split; [reflexivity|].
    exists (tc ++ [EvGetAddress; EvLog (MsgFatal CallRejected)]).
    split; [rewrite <- app_assoc; reflexivity|].
    destruct (connected_events w sh tc H) as [_ Nc].
    rewrite forallb_app, Nc. reflexivity.
  - right. left. split; [reflexivity|].
    exists (tc ++ prompts
               ++ [EvLog (if malformed (parsed w) then MsgInvalidInput
                          else MsgInvalidRange)]).
    split; [rewrite <- !app_assoc; reflexivity|].
    destruct (connected_events w sh tc H) as [_ Nc].
    rewrite !forallb_app, Nc. reflexivity.
  - right. left. split; [reflexivity|].
    exists ((tc ++ prompts ++ ta) ++ [EvLog (MsgFatal e)]).
    split; [rewrite <- !app_assoc; reflexivity|].
    rewrite forallb_app, (no_exit_pieces _ _ _ _ _ _ _ _ _ H H1). reflexivity.
  - right. left. split; [reflexivity|].
    exists ((tc ++ prompts ++ ta) ++ [EvLog (MsgFatal e)]).
    split; [rewrite <- !app_assoc; reflexivity|].
    rewrite forallb_app, (no_exit_pieces _ _ _ _ _ _ _ _ _ H H1). reflexivity.
  - pose proof (no_exit_pieces _ _ _ _ _ _ _ _ _ H H1) as Npre.
    destruct (loop_any w (parsed w) d v fuel one 0%nat)
      as (ts & k2 & r2 & E2 & Fs & Hr2).
    rewrite H3 in E2. injection E2 as -> _ <-.
    pose proof (forallb_weaken loop_event no_exit _ ltac:(by_event)
                  (shapes_events _ _ _ _ _ Fs)) as Nl.
    assert (Nall : forallb no_exit
                     ((tc ++ prompts ++ ta)
                        ++ [EvLog (MsgSubscribeValue v)] ++ concat ts) = true).
    { repeat rewrite forallb_app in Npre. repeat rewrite forallb_app.
      rewrite Nl.
      apply andb_prop in Npre as [N1 N2]. apply andb_prop in N2 as [N2 N3].
      rewrite N1, N2, N3. reflexivity. }
    set (pre := (tc ++ prompts ++ ta)
                  ++ [EvLog (MsgSubscribeValue v)] ++ concat ts) in Nall.
    assert (Eq : forall tail,
              tc ++ prompts ++ ta ++ [EvLog (MsgSubscribeValue v)]
                 ++ concat ts ++ tail = pre ++ tail).
    { intros tail. subst pre. repeat rewrite <- app_assoc. reflexivity. }
    rewrite Eq.
    destruct Hr2 as [->|[(e & ->)| ->]]; cbn [closing fst snd].
    + left. split; [reflexivity|].
      split; [rewrite forallb_app, Nall; reflexivity|].
      exists pre. reflexivity.
    + right. left. split; [reflexivity|].
      exists (pre ++ [EvLog (MsgFatal e)]).
      split; [rewrite <- app_assoc; reflexivity|].
      rewrite forallb_app, Nall. reflexivity.
    + right. right. split; [reflexivity|].
      rewrite app_nil_r. exact Nall.
Qed.

(** X6.  Whatever the library shape, the replies and the inputs, a run
    submits at most one approval, and that one asks for the largest
    uint256: the loop never approves. *)
Theorem at_most_one_approval (w : world) (fuel : nat) :
  filter is_approve (fst (run w fuel)) = []
  \/ filter is_approve (fst (run w fuel)) = [EvApprove MaxUint256].
Proof.
  assert (Happ : ledger_only is_approve) by (unfold ledger_only; by_event).
  destruct (run_ledger_calls w fuel)
    as [E|(sh & tc & ta & r & ts & d & v & _ & _ & Ea & E & Fs & _)];
    [left; exact (E _ Happ)|].
  rewrite (E _ Happ).
  rewrite (filter_none is_approve loop_event (concat ts) ltac:(by_event)
             (shapes_events _ _ _ _ _ Fs)), app_nil_r.
  pose proof (RunClaims.approve_at_most_once w sh (maxVal (parsed w)) 0%nat)
    as A.
  cbv zeta in A. rewrite Ea in A. exact A.
Qed.

(** X7.  Once the allowance has been read and printed, the approval is
    submitted exactly when the comparison of line 136 says the allowance
    is too small.  That comparison never misses an allowance below the
    threshold, and under ethers v6 it is the numeric comparison. *)
Theorem approval_follows_the_guard (w : world) (fuel : nat) (al : Z) :
  In (EvLog (MsgAllowance al)) (fst (run w fuel)) ->
  exists sh d need,
    ethers_shape w = Some sh /\ decimals_reply w = Some d
    /\ parseUnits (toString (maxVal (parsed w))) d = Ok need
    /\ allowance_reply w = Some al
    /\ filter is_approve (fst (run w fuel))
       = (if allowTooSmall sh al need then [EvApprove MaxUint256] else [])
    /\ (al < need -> allowTooSmall sh al need = true)
    /\ (sh = V6 -> need <= al -> allowTooSmall sh al need = false).
Proof.
  intros Hin.
  assert (Happ : ledger_only is_approve) by (unfold ledger_only; by_event).
  assert (Hline : ledger_only is_allowance_line)
    by (unfold ledger_only; by_event).
  assert (Hin' : In (EvLog (MsgAllowance al))
                    (filter is_allowance_line (fst (run w fuel))))
    by (apply filter_In; split; [exact Hin|reflexivity]).
  destruct (run_ledger_calls w fuel)
    as [E|(sh & tc & ta & r & ts & d0 & v & Hc & _ & Ea & E & Fs & _)];
    [rewrite (E _ Hline) in Hin'; contradiction|].
  rewrite (E _ Hline) in Hin'.
  rewrite (filter_none is_allowance_line loop_event (concat ts)
             ltac:(by_event) (shapes_events _ _ _ _ _ Fs)), app_nil_r in Hin'.
  apply filter_In in Hin' as [Hta _].
  pose proof (guard_lines w sh (maxVal (parsed w)) 0%nat al) as G.
  rewrite Ea in G. cbn [fst] in G.
  destruct (G Hta) as (d & need & Hd & Hp & Hal & A).
  destruct Hc as (_ & Hs & _).
  exists sh, d, need.
  split; [exact Hs|]. split; [exact Hd|]. split; [exact Hp|].
  split; [exact Hal|]. split; [|split].
  - rewrite (E _ Happ).
    rewrite (filter_none is_approve loop_event (concat ts) ltac:(by_event)
               (shapes_events _ _ _ _ _ Fs)), app_nil_r.
    exact A.
  - intros Hlt. destruct sh; cbn [allowTooSmall];
      replace (al <? need) with true by (symmetry; apply Z.ltb_lt; lia);
      reflexivity.
  - intros -> Hge. cbn [allowTooSmall]. apply Z.ltb_ge. lia.
Qed.

Lemma approval_follows_the_guard_witness :
  exists sh d need,
    ethers_shape v5_sufficient = Some sh
    /\ decimals_reply v5_sufficient = Some d
    /\ parseUnits (toString (maxVal (parsed v5_sufficient))) d = Ok need
    /\ allowance_reply v5_sufficient = Some 1000000
    /\ filter is_approve (fst (run v5_sufficient 5))
       = (if allowTooSmall sh 1000000 need then [EvApprove MaxUint256]
          else [])
    /\ (1000000 < need -> allowTooSmall sh 1000000 need = true)
    /\ (sh = V6 -> need <= 1000000 -> allowTooSmall sh 1000000 need = false).
Proof.
  apply (approval_follows_the_guard v5_sufficient 5 1000000).
  apply (nth_error_In _ 14). vm_compute. reflexivity.
Defined.

(** X8.  Submissions go one at a time, for every world: in the order of
    the calls, each accepted submission is followed by the wait for its
    own confirmation before anything else is submitted, and a rejected
    one by no wait at all. *)
Theorem submissions_are_sequential (w : world) (fuel : nat) :
  sequential w (filter is_submission_call (fst (run w fuel))).
Proof.
  assert (Hsub : ledger_only is_submission_call)
    by (unfold ledger_only; by_event).
  destruct (run_ledger_calls w fuel)
    as [E|(sh & tc & ta & r & ts & d & v & _ & _ & Ea & E & Fs & _)].
  - rewrite (E _ Hsub). constructor.
  - rewrite (E _ Hsub).
    pose proof (guard_events w sh (maxVal (parsed w)) 0%nat) as G.
    rewrite Ea in G. cbn [fst] in G.
    rewrite (filter_none is_submission_call guard_event ta ltac:(by_event) G).
    cbn [app]. clear E.
    induction Fs as [|t ts (j & Ht) _ IH]; [constructor|].
    cbn [concat]. rewrite filter_app.
    destruct (shape_calls _ _ _ _ _ _ Ht) as (amt & ->).
    destruct (subscribe_reply w j) eqn:Rep; cbn [app].
    + apply sequential_sent; [rewrite Rep; discriminate|exact IH].
    + apply sequential_rejected; [exact Rep|exact IH].
    + apply sequential_sent; [rewrite Rep; discriminate|exact IH].
Qed.

(** X9.  Nothing is submitted unless every preparation succeeded: if a
    run submits at least one subscription, then it was connected, the
    inputs were accepted, the token's decimals (within the range of
    [toFixed]) and the allowance were read, the configured maximum and
    the payment value were parsed, and any approval the guard asked for
    was confirmed. *)
Theorem submission_requires_preparation (w : world) (fuel : nat) :
  subscribed (fst (run w fuel)) <> [] ->
  exists sh tc d v need al,
    connected w sh tc /\ accepted w
    /\ decimals_reply w = Some d /\ 0 <= d <= 100
    /\ parseUnits (toString (maxVal (parsed w))) d = Ok need
    /\ allowance_reply w = Some al
    /\ (allowTooSmall sh al need = true -> approve_reply w = Confirmed)
    /\ parseEther (SUBSCRIBE_VALUE w) = Ok v.
Proof.
  intros Hsome. rewrite subscribed_filter in Hsome.
  assert (Hsub : ledger_only is_submission_call)
    by (unfold ledger_only; by_event).
  destruct (run_ledger_calls w fuel)
    as [E|(sh & tc & ta & r & ts & d & v & Hc & Hacc & Ea & E & Fs & Hts)];
    [rewrite (E _ Hsub) in Hsome; contradiction|].
  rewrite (E _ Hsub) in Hsome.
  pose proof (guard_events w sh (maxVal (parsed w)) 0%nat) as G.
  rewrite Ea in G. cbn [fst] in G.
  rewrite (filter_none is_submission_call guard_event ta ltac:(by_event) G)
    in Hsome.
  destruct ts as [|t ts]; [contradiction|].
  destruct (Hts ltac:(discriminate)) as [-> Hv].
  destruct (ensure_allowance_any w sh (maxVal (parsed w)) 0%nat)
    as (ta' & r' & Ea' & [(e & ->)|(d' & need & al & -> & Hd & Hp & Hal
                                    & Happ & _)]);
    rewrite Ea in Ea'; [discriminate|].
  injection Ea' as _ <-.
  exists sh, tc, d, v, need, al.
  split; [assumption|]. split; [assumption|]. split; [assumption|].
  split; [|repeat split; assumption].
  apply Forall_inv in Fs as (j & k & s & amt & tail & Hfix & _).
  exact (toFixed_ok_range _ _ _ Hfix).
Qed.

Lemma submission_requires_preparation_witness :
  exists sh tc d v need al,
    connected three_loops sh tc /\ accepted three_loops
    /\ decimals_reply three_loops = Some d /\ 0 <= d <= 100
    /\ parseUnits (toString (maxVal (parsed three_loops))) d = Ok need
    /\ allowance_reply three_loops = Some al
    /\ (allowTooSmall sh al need = true
        -> approve_reply three_loops = Confirmed)
    /\ parseEther (SUBSCRIBE_VALUE three_loops) = Ok v.
Proof.
  apply (submission_requires_preparation three_loops 5).
  vm_compute. discriminate.
Defined.

(** X10.  With a fair [Math.random], every amount submitted lies between
    the configured minimum and maximum, each rounded to the token's
    decimals as [toFixed] rounds; and every submission carries the
    configured payment value. *)
Theorem submitted_amounts_in_range (w : world) (fuel : nat)
    (i : number) (amt v : Z) :
  fair_random w ->
  In (EvSubscribe i amt v) (fst (run w fuel)) ->
  exists a b d,
    minVal (parsed w) = Fin a /\ maxVal (parsed w) = Fin b
    /\ decimals_reply w = Some d
    /\ parseEther (SUBSCRIBE_VALUE w) = Ok v
    /\ fixed_int a d <= amt <= fixed_int b d.
Proof.
  intros Hrand Hin.
  assert (Hsub : ledger_only is_submission_call)
    by (unfold ledger_only; by_event).
  assert (Hin' : In (EvSubscribe i amt v)
                    (filter is_submission_call (fst (run w fuel))))
    by (apply filter_In; split; [exact Hin|reflexivity]).
  destruct (run_ledger_calls w fuel)
    as [E|(sh & tc & ta & r & ts & d & v0 & Hc & Hacc & Ea & E & Fs & Hts)];
    [rewrite (E _ Hsub) in Hin'; contradiction|].
  rewrite (E _ Hsub) in Hin'.
  pose proof (guard_events w sh (maxVal (parsed w)) 0%nat) as G.
  rewrite Ea in G. cbn [fst] in G.
  rewrite (filter_none is_submission_call guard_event ta ltac:(by_event) G)
    in Hin'.
  cbn [app] in Hin'. apply filter_In in Hin' as [Hl _].
  apply in_concat in Hl as (t & Ht & Hit).
  assert (Hne : ts <> []) by (intros ->; contradiction).
  destruct (Hts Hne) as [-> Hv].
  rewrite Forall_forall in Fs. destruct (Fs t Ht) as (j & Hshape).
  destruct (shape_submission _ _ _ _ _ _ _ _ _ Hshape Hit)
    as (-> & -> & k & s & Hfix & Hparse).
  pose proof (toFixed_ok_range _ _ _ Hfix) as Hd100.
  destruct (ensure_allowance_any w sh (maxVal (parsed w)) 0%nat)
    as (ta' & r' & Ea' & [(e & ->)|(d' & need & al & -> & Hd & Hp & _)]);
    rewrite Ea in Ea'; [discriminate|].
  injection Ea' as _ <-.
  destruct Hacc as (_ & Hm & Hr).
  destruct (validated_amounts (parsed w) d need Hm Hr
              (parseFloat_is_double _) (parseFloat_is_double _)
              ltac:(lia) Hp)
    as (a & b & Emin & Emax & Hab & Hb & Ga & Gb).
  exists a, b, d.
  split; [exact Emin|]. split; [exact Emax|]. split; [exact Hd|].
  split; [exact Hv|].
  destruct (Hrand k) as (u & Eu & Hu & Gu).
  destruct (affine_range u a b Hu Gu ltac:(lia) Ga Gb) as (x & Ex & Hx & Gx).
  unfold draw in Hfix. rewrite Eu, Emin, Emax, Ex in Hfix.
  rewrite toFixed_in_range in Hfix by lia. injection Hfix as <-.
  destruct (fixed_layout_parses (fixed_int x d) d) as [Hp' _];
    [apply fixed_int_nonneg; lia|lia|].
  rewrite Hp' in Hparse. injection Hparse as <-.
  split; apply fixed_int_mono; lia.
Qed.

(** X11.  Until an attempt to reach the endpoint has succeeded, the
    script reads no wallet address, asks nothing and calls neither the
    token nor the contract. *)
Theorem nothing_before_connection (w : world) (fuel : nat) (e : event) :
  In e (fst (run w fuel)) -> after_connection e = true ->
  env_present w = true
  /\ (exists sh, ethers_shape w = Some sh)
  /\ exists a, 1 <= a <= 8 /\ network_up w a = true.
Proof.
  intros Hin He.
  assert (Hcon : forall sh tc, connected w sh tc ->
            env_present w = true
            /\ (exists sh, ethers_shape w = Some sh)
            /\ exists a, 1 <= a <= 8 /\ network_up w a = true).
  { intros sh tc Hc. pose proof (connected_attempt w sh tc Hc) as Ha.
    destruct Hc as (He' & Hs & _).
    split; [exact He'|]. split; [exists sh; exact Hs|exact Ha]. }
  revert Hin. run_cases w fuel; intros Hin; try (eapply Hcon; eassumption).
  - cbn [In] in Hin. destruct Hin as [<-|[<-|[]]]; discriminate.
  - cbn [In] in Hin. destruct Hin as [<-|[<-|[]]]; discriminate.
  - exfalso. apply in_app_or in Hin as [Hin|[<-|[]]]; [|discriminate].
    pose proof (forallb_In _ _ _ H1 Hin) as Hce.
    clear Hin. revert Hce He. revert e. by_event.
Qed.

Lemma submitted_amounts_in_range_witness :
  exists a b d,
    minVal (parsed three_loops) = Fin a /\ maxVal (parsed three_loops) = Fin b
    /\ decimals_reply three_loops = Some d
    /\ parseEther (SUBSCRIBE_VALUE three_loops) = Ok 0
    /\ fixed_int a d <= 400000 <= fixed_int b d.
Proof.
  apply (submitted_amounts_in_range three_loops 5 (of_Z 1) 400000 0).
  - intros k.
    exists (match of_decimal 75 (-2) with Fin u => u | _ => 0 end).
    split; [vm_compute; reflexivity|].
    split; [split; [apply Z.leb_le|apply Z.ltb_lt]|]; vm_compute; reflexivity.
  - apply (nth_error_In _ 26). vm_compute. reflexivity.
Defined.

Lemma nothing_before_connection_witness :
  env_present three_loops = true
  /\ (exists sh, ethers_shape three_loops = Some sh)
  /\ exists a, 1 <= a <= 8 /\ network_up three_loops a = true.
Proof.
  apply (nothing_before_connection three_loops 5 EvGetAddress).
  - apply (nth_error_In _ 6). vm_compute. reflexivity.
  - reflexivity.
Defined.

(** A blank answer parses to NaN, with [parseFloat] and with [parseInt]. *)
Lemma blank_is_NaN s :
  forallb is_space s = true -> parseFloat s = NaN /\ parseInt s = NaN.
Proof.
  intros H. unfold parseFloat, parseInt.
  rewrite (drop_while_all is_space s H). split; reflexivity.
Qed.

(** X12.  A blank answer to any of the five prompts is refused: once the
    prompts have been asked, the run prints the line for non-numeric
    input and exits with code 1, before any call to the token or the
    contract. *)
Theorem blank_answer_is_refused (w : world) (fuel : nat) (q : question) :
  forallb is_space (answer w q) = true ->
  In (EvAsk q) (fst (run w fuel)) ->
  exists tc,
    forallb connect_event tc = true
    /\ run w fuel
       = (tc ++ prompts ++ [EvLog MsgInvalidInput; EvExit 1], Exited 1).
Proof.
  intros Hblank Hin.
  assert (Hm : malformed (parsed w) = true).
  { destruct (blank_is_NaN _ Hblank) as [Hf Hi].
    unfold malformed, parsed. cbn [minVal maxVal loops delayMin delayMax].
    destruct q; rewrite ?Hf, ?Hi; cbn [isNaN orb];
      rewrite ?orb_true_r; reflexivity. }
  pose proof (run_ends w fuel) as E.
  destruct (run w fuel) as [t r]. cbn [fst] in Hin.
  inversion E; subst; clear E.
  - exfalso. cbn [In] in Hin. destruct Hin as [Hin|[Hin|[]]]; discriminate.
  - exfalso. cbn [In] in Hin. destruct Hin as [Hin|[Hin|[]]]; discriminate.
  - exfalso. apply in_app_or in Hin as [Hin|[Hin|[]]]; [|discriminate].
    match goal with H : forallb connect_event _ = true |- _ =>
      pose proof (forallb_In _ _ _ H Hin) as Hce end.
    discriminate.
  - exfalso.
    match goal with H : connected _ _ _ |- _ =>
      destruct (connected_events _ _ _ H) as [Ec _] end.
    apply in_app_or in Hin as [Hin|Hin].
    + pose proof (forallb_In _ _ _ Ec Hin). discriminate.
    + cbn [In] in Hin.
      repeat (destruct Hin as [Hin|Hin]; [discriminate|]). contradiction.
  - match goal with H : connected _ _ _ |- _ =>
      destruct (connected_events _ _ _ H) as [Ec _] end.
    exists tc. split; [exact Ec|]. rewrite Hm. reflexivity.
  - exfalso. match goal with H : accepted _ |- _ =>
      destruct H as (_ & Hm' & _) end. congruence.
  - exfalso. match goal with H : accepted _ |- _ =>
      destruct H as (_ & Hm' & _) end. congruence.
  - exfalso. match goal with H : accepted _ |- _ =>
      destruct H as (_ & Hm' & _) end. congruence.
Qed.

Lemma blank_answer_is_refused_witness :
  exists tc,
    forallb connect_event tc = true
    /\ run blank_loops 5
       = (tc ++ prompts ++ [EvLog MsgInvalidInput; EvExit 1], Exited 1).
Proof.
  apply (blank_answer_is_refused blank_loops 5 AskLoops).
  - vm_compute. reflexivity.
  - apply (nth_error_In _ 8). vm_compute. reflexivity.
Defined.

(** X13.  The closing line is never printed without a submission: a run
    that completes has attempted at least the first subscription (a loop
    count that passes the validation is at least one). *)
Theorem completion_implies_submission (w : world) (fuel : nat) :
  snd (run w fuel) = Returned tt ->
  exists amt v, In (EvSubscribe one amt v) (fst (run w fuel)).
Proof.
  run_cases w fuel; try discriminate.
  intros Hr.
  assert (r = Returned tt) by (destruct r as [[]| | |]; try discriminate Hr;
                               reflexivity).
  subst r. clear Hr. cbn [closing fst].
  destruct fuel as [|f]; [discriminate H3|].
  cbn [subscribe_loop] in H3.
  destruct H0 as (_ & Hm & Ho).
  assert (Hle : le one (loops (parsed w)) = true).
  { unfold malformed in Hm. unfold out_of_range in Ho.
    repeat (apply orb_false_elim in Hm; destruct Hm as [Hm ?]).
    repeat (apply orb_false_elim in Ho; destruct Ho as [Ho ?]).
    apply accepted_count; assumption. }
  rewrite Hle in H3.
  destruct (iteration_any w (parsed w) d v one 0%nat)
    as [(e & Ei)|(ti & k1 & Ei & k0 & s & amt & tail & _ & _ & -> & _)].
  - rewrite (bind_thrown _ _ _ _ _ _ Ei) in H3. discriminate H3.
  - rewrite (bind_returned _ _ _ _ _ _ Ei) in H3.
    destruct (subscribe_loop w (parsed w) d v f (add one one) k1)
      as [[t' k'] r'].
    cbn [prepend] in H3. injection H3 as <- _ _.
    exists amt, v.
    repeat rewrite in_app_iff. cbn [In]. tauto.
Qed.

Lemma completion_implies_submission_witness :
  exists amt v, In (EvSubscribe one amt v) (fst (run three_loops 5)).
Proof.
  apply (completion_implies_submission three_loops 5).
  vm_compute. reflexivity.
Defined.


End RunBehaviour.
